(** * fsutil: the Send / Receive exchange of copy.go

    A shallow embedding of [copy.go]: the sender ([Send], [sender.run],
    [sender.queue], [sender.sendFile], [sender.send], [fileSender.Write]),
    the receiver ([Receive], [receiver.run], [getAsyncDataFunc]) and the
    synchronized stream ([syncStream.SendMsg]).

    The Go program is concurrent.  Every goroutine is modelled as a small
    machine; one step of a machine is the block of the source that a
    goroutine runs from one call that waits for the outside (a [RecvMsg], a
    call of the walk callback, an [Open] or a [Read] of the file) to the
    next.  What the outside answers (the received packet, the error of a
    send, the bytes of a read) is carried by the event that fires the step,
    and a run of the program is a list of events: the interleaving chosen by
    the scheduler.

    A step is atomic.  For the tables this is what the locks of the source
    give ([s.mu], [r.mu], [r.muPipes]), and for a [SendMsg] what the mutex of
    the [syncStream] gives (last part of the model).  For
    [sender.updateProgress] it is an assumption: the source updates
    [progressCurrent] without a lock, and what the statements of two
    overlapping calls can do is shown apart ([upd_step]). *)

From Stdlib Require Import ZArith List String Ascii Lia Bool.
From Stdlib Require Import Init.Byte DecimalString.
From stdpp Require Import gmap strings list fin_maps.

Local Open Scope Z_scope.

(** ** Machine integers *)

(** [uint32]: the type of the ids ([var i uint32], [Packet.ID]). *)
Definition uint32 (x : Z) : Z := x mod 2 ^ 32.

(** [int]: the type of [progressCurrent] and of [Packet.Size()], 64 bits,
    two's complement. *)
Definition int (x : Z) : Z := (x + 2 ^ 63) mod 2 ^ 64 - 2 ^ 63.

(** [32*1<<10]: the length of a buffer of [bufPool]. *)
Definition bufLen : Z := Z.shiftl (32 * 1) 10.

(** ** Errors *)

Inductive error : Type :=
| ErrInvalidFileId (id : Z)          (* errors.Errorf("invalid file id %d", id) *)
| ErrInvalidFileRequestID (id : Z)   (* errors.Errorf("invalid file request %s", p.ID) *)
| ErrInvalidFileRequest (p : string) (* errors.Errorf("invalid file request %s", p) *)
| ErrWrapf (msg : string) (cause : error) (* errors.Wrapf(cause, msg) *)
| EOF                                (* io.EOF *)
| ErrClosedPipe                      (* io.ErrClosedPipe *)
| ErrShortWrite                      (* io.ErrShortWrite *)
| ErrOther (msg : string).           (* an error of the transport, the walk or the file system *)

Definition decimal (n : Z) : string := NilZero.string_of_int (Z.to_int n).

(** [err.Error()]. *)
Fixpoint Error (e : error) : string :=
  match e with
  | ErrInvalidFileId id => "invalid file id " +:+ decimal id
  | ErrInvalidFileRequestID id =>
      "invalid file request %!s(uint32=" +:+ decimal id +:+ ")"
  | ErrInvalidFileRequest p => "invalid file request " +:+ p
  | ErrWrapf msg cause => msg +:+ ": " +:+ Error cause
  | EOF => "EOF"
  | ErrClosedPipe => "io: read/write on closed pipe"
  | ErrShortWrite => "short write"
  | ErrOther msg => msg
  end.

(** [errors.Wrapf(err, msg)]: nil when [err] is nil. *)
Definition Wrapf (err : option error) (msg : string) : option error :=
  match err with
  | None => None
  | Some e => Some (ErrWrapf msg e)
  end.

(** [strings.Contains(s, sub)] *)
Fixpoint Contains (s sub : string) : bool :=
  String.prefix sub s ||
  match s with
  | EmptyString => false
  | String _ s' => Contains s' sub
  end.

(** ** Packets *)

(** Modelled from the spec: the declarations of [Stat] and [Packet] are
    generated code that is not part of [copy.go].  An entry's metadata is its
    path, its mode and type bits and the other stat fields; a packet is one
    of [Stat], [Request], [Data], [Fin], with an optional metadata payload,
    an id and bytes. *)
Record Stat : Type := {
  Path : string;
  Mode : Z;
  Uid : Z;
  Gid : Z;
  Size_ : Z;
  ModTime : Z;
  Linkname : string;
}.

Inductive PacketType : Type :=
| PACKET_STAT
| PACKET_REQ
| PACKET_DATA
| PACKET_FIN
| PACKET_UNRECOGNIZED.

Record Packet : Type := {
  p_Type : PacketType;
  p_Stat : option Stat;
  p_ID : Z;
  p_Data : list byte;
}.

(** [&Packet{Type: t}]: the other fields are zero. *)
Definition Packet_of (t : PacketType) : Packet :=
  {| p_Type := t; p_Stat := None; p_ID := 0; p_Data := [] |}.

(** The type bits of [os.FileMode]. *)
Definition ModeDir : Z := Z.shiftl 1 31.
Definition ModeSymlink : Z := Z.shiftl 1 27.
Definition ModeDevice : Z := Z.shiftl 1 26.
Definition ModeNamedPipe : Z := Z.shiftl 1 25.

(** [os.FileMode(m)&(os.ModeDir|os.ModeSymlink|os.ModeNamedPipe|os.ModeDevice) == 0] *)
Definition isRegular (m : Z) : bool :=
  Z.eqb (Z.land m (Z.lor (Z.lor (Z.lor ModeDir ModeSymlink) ModeNamedPipe) ModeDevice)) 0.

(** ** Contexts *)

(** A [context.Context] as the tree of its derivations: [WithCancel parent b]
    is a context derived by [context.WithCancel], [b] telling whether its own
    cancel function has been called. *)
Inductive Context : Type :=
| Background
| WithCancel (parent : Context) (cancelled : bool).

(** [ctx.Err() != nil] *)
Fixpoint Done (c : Context) : bool :=
  match c with
  | Background => false
  | WithCancel parent b => b || Done parent
  end.

(** [cancel()] *)
Definition cancel (c : Context) : Context :=
  match c with
  | Background => Background
  | WithCancel parent _ => WithCancel parent true
  end.

(** ** What the program does to the outside *)

Inductive effect : Type :=
| SendMsg_call (p : Packet) (res : option error) (* conn.SendMsg(p) returned res *)
| Progress_call (n : Z) (last : bool)            (* progressCb(n, last) *)
| Go_sendFile (id : Z) (p : string)              (* go s.sendFile(id, p) *)
| Log_error (e : error).                         (* logrus.Error(e) *)

(** A state monad over the state of one side and the effects so far. *)
Definition M (S A : Type) : Type := S * list effect -> A * (S * list effect).

Definition ret {S A} (a : A) : M S A := fun w => (a, w).
Definition bind {S A B} (m : M S A) (k : A -> M S B) : M S B :=
  fun w => let '(a, w') := m w in k a w'.
Definition get {S} : M S S := fun w => (fst w, w).
Definition put {S} (s : S) : M S unit := fun w => (tt, (s, snd w)).
Definition emit {S} (e : effect) : M S unit := fun w => (tt, (fst w, snd w ++ [e])).

Notation "x <- m ;; k" := (bind m (fun x => k))
  (at level 100, m at next level, right associativity).
Notation "m ;;; k" := (bind m (fun _ => k))
  (at level 100, right associativity).

(** [conn.SendMsg(p)], the transport answering [res].  The stream of a
    sender or a receiver is a [syncStream]: the call is one atomic step. *)
Definition SendMsg {S} (p : Packet) (res : option error) : M S (option error) :=
  emit (SendMsg_call p res) ;;; ret res.

(** ** The sender *)

(** [type sender struct]: [conn] is the stream the effects go to, [mu] guards
    [files] (a block under the lock is inside one step), [progressCb] tells
    whether the callback is non-nil, [opt] is only handed to the walk. *)
Record sender : Type := {
  ctx : Context;
  root : string;
  files : gmap Z string;
  progressCb : bool;
  progressCurrent : Z;
}.

(** A [os.FileInfo]: [Sys] is the result of asserting that [fi.Sys()] is a
    pointer to a [Stat], [None] when it is not. *)
Record FileInfo : Type := { Sys : option Stat }.

(** The goroutine of [go s.send()]: inside [Walk] with the counter [i], or
    returned. *)
Inductive sendTask : Type :=
| Walking (i : Z)
| Sent (err : option error).

(** A goroutine of [go s.sendFile(id, p)]: before [os.Open], inside
    [io.CopyBuffer], before the last [SendMsg], or returned. *)
Inductive fileTask : Type :=
| Opening (id : Z) (p : string)
| Copying (id : Z)
| Closing (id : Z)
| Finished (err : option error).

(** The sender's side of one exchange: the [sender], the outcome of [run]
    ([None] while its loop runs) and the goroutines. *)
Record system : Type := {
  snd_ : sender;
  returned : option (option error);
  walker : sendTask;
  tasks : list fileTask;
}.

Definition with_sender (f : sender -> sender) (sys : system) : system :=
  {| snd_ := f (snd_ sys); returned := returned sys;
     walker := walker sys; tasks := tasks sys |}.

Definition with_files (f : gmap Z string -> gmap Z string) (s : sender) : sender :=
  {| ctx := ctx s; root := root s; files := f (files s);
     progressCb := progressCb s; progressCurrent := progressCurrent s |}.

Definition with_progressCurrent (n : Z) (s : sender) : sender :=
  {| ctx := ctx s; root := root s; files := files s;
     progressCb := progressCb s; progressCurrent := n |}.

Definition with_ctx (f : Context -> Context) (s : sender) : sender :=
  {| ctx := f (ctx s); root := root s; files := files s;
     progressCb := progressCb s; progressCurrent := progressCurrent s |}.

Definition with_returned (r : option error) (sys : system) : system :=
  {| snd_ := snd_ sys; returned := Some r;
     walker := walker sys; tasks := tasks sys |}.

Definition with_walker (t : sendTask) (sys : system) : system :=
  {| snd_ := snd_ sys; returned := returned sys;
     walker := t; tasks := tasks sys |}.

Definition with_tasks (f : list fileTask -> list fileTask) (sys : system) : system :=
  {| snd_ := snd_ sys; returned := returned sys;
     walker := walker sys; tasks := f (tasks sys) |}.

Definition modify {S} (f : S -> S) : M S unit := fun w => (tt, (f (fst w), snd w)).

(** What the outside does next: the event names the goroutine that runs and
    carries what its calls return. *)
Inductive event : Type :=
| Ev_Recv (r : error + Packet) (sr : option error)
    (* s.conn.RecvMsg(&p) returns; sr: what a SendMsg of this iteration returns *)
| Ev_Walk (path : string) (fi : FileInfo) (err : option error) (sr : option error)
    (* Walk calls its callback *)
| Ev_WalkReturn (err : option error) (sr : option error)
    (* Walk returns, on its own: the callback has not failed *)
| Ev_Open (k : nat) (err : option error)
    (* os.Open returns in the k-th file goroutine *)
| Ev_Read (k : nat) (dt : list byte) (er : option error) (sr : option error)
    (* f.Read(buf) returns len(dt), er in the k-th file goroutine *)
| Ev_Last (k : nat) (sr : option error).
    (* the k-th file goroutine reaches its last statement *)

Section Sender.

(** [p.Size()], generated code that is not part of [copy.go]. *)
Variable Size : Packet -> Z.

(** [func (s *sender) updateProgress(size int, last bool)] *)
Definition updateProgress (size : Z) (last : bool) : M system unit :=
  sys <- get ;;
  if progressCb (snd_ sys) then
    let cur := int (progressCurrent (snd_ sys) + size) in
    modify (with_sender (with_progressCurrent cur)) ;;;
    emit (Progress_call cur last)
  else ret tt.

(** [func (s *sender) queue(id uint32) error] *)
Definition queue (id : Z) : M system (option error) :=
  sys <- get ;;
  match files (snd_ sys) !! id with
  | None => ret (Some (ErrInvalidFileId id))
  | Some p =>
      modify (with_sender (with_files (delete id))) ;;;
      emit (Go_sendFile id p) ;;;
      modify (with_tasks (fun ts => ts ++ [Opening id p])) ;;;
      ret None
  end.

(** One iteration of the loop of [func (s *sender) run() error]: [Some err]
    when the iteration returns [err] from [run]. *)
Definition run_iter (r : error + Packet) (sr : option error)
  : M system (option (option error)) :=
  match r with
  | inl _ => ret None
  | inr p =>
      match p_Type p with
      | PACKET_REQ =>
          err <- queue (p_ID p) ;;
          match err with
          | Some e => ret (Some (Some e))
          | None => ret None
          end
      | PACKET_FIN =>
          err <- SendMsg (Packet_of PACKET_FIN) sr ;;
          ret (Some err)
      | _ => ret None
      end
  end.

(** [run] while it has not returned; on return the deferred
    [s.updateProgress(0, true)] runs, then the deferred [cancel()] of [Send]. *)
Definition run (r : error + Packet) (sr : option error) : M system unit :=
  sys <- get ;;
  match returned sys with
  | Some _ => ret tt
  | None =>
      out <- run_iter r sr ;;
      match out with
      | None => ret tt
      | Some err =>
          updateProgress 0 true ;;;
          modify (with_sender (with_ctx cancel)) ;;;
          modify (with_returned err)
      end
  end.

(** The callback that [func (s *sender) send() error] gives to [Walk], the
    counter [i] of [send] passed in and out. *)
Definition send_fn (i : Z) (path : string) (fi : FileInfo) (err : option error)
    (sr : option error) : M system (option error * Z) :=
  match err with
  | Some e => ret (Some e, i)
  | None =>
      match Sys fi with
      | None => ret (Wrapf err ("invalid fileinfo without stat info: " +:+ path), i)
      | Some stat =>
          let p := {| p_Type := PACKET_STAT; p_Stat := Some stat;
                      p_ID := 0; p_Data := [] |} in
          modify (with_sender (with_files (insert i (Path stat)))) ;;;
          let i' := uint32 (i + 1) in
          updateProgress (Size p) false ;;;
          res <- SendMsg p sr ;;
          ret (Wrapf res ("failed to send stat " +:+ path), i')
      end
  end.

(** [send]: a call of the callback by [Walk]; [Walk] stops at the first error
    of the callback and returns it. *)
Definition send_walk (path : string) (fi : FileInfo) (err : option error)
    (sr : option error) : M system unit :=
  sys <- get ;;
  match walker sys with
  | Sent _ => ret tt
  | Walking i =>
      out <- send_fn i path fi err sr ;;
      match out with
      | (Some e, _) => modify (with_walker (Sent (Some e)))
      | (None, i') => modify (with_walker (Walking i'))
      end
  end.

(** [send]: after [Walk] has returned [err]. *)
Definition send_return (err : option error) (sr : option error) : M system unit :=
  sys <- get ;;
  match walker sys with
  | Sent _ => ret tt
  | Walking _ =>
      match err with
      | Some e => modify (with_walker (Sent (Some e)))
      | None =>
          res <- SendMsg (Packet_of PACKET_STAT) sr ;;
          modify (with_walker (Sent (Wrapf res "failed to send last stat")))
      end
  end.

(** [func (fs *fileSender) Write(dt []byte) (int, error)] *)
Definition Write (id : Z) (dt : list byte) (sr : option error)
  : M system (Z * option error) :=
  if Z.of_nat (length dt) =? 0 then ret (0, None)
  else
    let p := {| p_Type := PACKET_DATA; p_Stat := None; p_ID := id; p_Data := dt |} in
    err <- SendMsg p sr ;;
    match err with
    | Some e => ret (0, Some e)
    | None =>
        updateProgress (Size p) false ;;;
        ret (Z.of_nat (length dt), None)
    end.

(** One iteration of the loop of [io.CopyBuffer(&fileSender{..}, f, buf)],
    [f.Read(buf)] having returned [len(dt), er].  [None]: the loop goes on;
    [Some err]: [CopyBuffer] returns [err]. *)
Definition CopyBuffer_iter (id : Z) (dt : list byte) (er : option error)
    (sr : option error) : M system (option (option error)) :=
  let nr := Z.of_nat (length dt) in
  let after_read :=
    match er with
    | None => None
    | Some EOF => Some None
    | Some e => Some (Some e)
    end in
  if 0 <? nr then
    out <- Write id dt sr ;;
    match out with
    | (_, Some ew) => ret (Some (Some ew))
    | (nw, None) =>
        if negb (nr =? nw) then ret (Some (Some ErrShortWrite))
        else ret after_read
    end
  else ret after_read.

Definition set_task (k : nat) (t : fileTask) : M system unit :=
  modify (with_tasks (fun ts => <[k := t]> ts)).

(** [func (s *sender) sendFile(id uint32, p string) error], step by step. *)
Definition sendFile_open (k : nat) (err : option error) : M system unit :=
  sys <- get ;;
  match tasks sys !! k with
  | Some (Opening id p) =>
      match err with
      | None => set_task k (Copying id)
      | Some _ => set_task k (Closing id)
      end
  | _ => ret tt
  end.

Definition sendFile_read (k : nat) (dt : list byte) (er : option error)
    (sr : option error) : M system unit :=
  sys <- get ;;
  match tasks sys !! k with
  | Some (Copying id) =>
      if Z.of_nat (length dt) <=? bufLen then
        out <- CopyBuffer_iter id dt er sr ;;
        match out with
        | None => ret tt
        | Some None => set_task k (Closing id)
        | Some (Some e) => set_task k (Finished (Some e))
        end
      else ret tt
  | _ => ret tt
  end.

Definition sendFile_last (k : nat) (sr : option error) : M system unit :=
  sys <- get ;;
  match tasks sys !! k with
  | Some (Closing id) =>
      err <- SendMsg {| p_Type := PACKET_DATA; p_Stat := None;
                        p_ID := id; p_Data := [] |} sr ;;
      set_task k (Finished err)
  | _ => ret tt
  end.

(** One step of the sender's side. *)
Definition step (ev : event) : M system unit :=
  match ev with
  | Ev_Recv r sr => run r sr
  | Ev_Walk path fi err sr => send_walk path fi err sr
  | Ev_WalkReturn err sr => send_return err sr
  | Ev_Open k err => sendFile_open k err
  | Ev_Read k dt er sr => sendFile_read k dt er sr
  | Ev_Last k sr => sendFile_last k sr
  end.

Definition exec (evs : list event) (w : system * list effect) : system * list effect :=
  fold_left (fun w ev => snd (step ev w)) evs w.

(** [func Send(ctx, conn, root, opt, progressCb) error] up to the loop of
    [run]: the sender is built and [go s.send()] has started. *)
Definition Send (c : Context) (rootPath : string) (cb : bool) : system * list effect :=
  ({| snd_ := {| ctx := WithCancel c false; root := rootPath; files := ∅;
                 progressCb := cb; progressCurrent := 0 |};
      returned := None;
      walker := Walking 0;
      tasks := [] |}, []).

End Sender.

(** ** The receiver *)

(** The write end of an [io.Pipe]: the bytes written so far and whether the
    pipe is closed.  [Write] and [Close] return as in package [io] once the
    read end has taken the bytes; the read end of a pipe of [r.pipes] is
    never closed. *)
Record PipeWriter : Type := {
  written : list byte;
  closed : bool;
}.

(** [io.Pipe()] *)
Definition Pipe : PipeWriter := {| written := []; closed := false |}.

(** [pw.Write(dt)] *)
Definition pw_Write (pw : PipeWriter) (dt : list byte) : PipeWriter * option error :=
  if closed pw then (pw, Some ErrClosedPipe)
  else ({| written := written pw ++ dt; closed := false |}, None).

(** [pw.Close()] *)
Definition pw_Close (pw : PipeWriter) : PipeWriter * option error :=
  ({| written := written pw; closed := true |}, None).

(** [&currentPath{path: .., f: &StatInfo{..}}] *)
Record currentPath : Type := {
  path : string;
  f : Stat;
}.

(** [type receiver struct]: [walkChan] holds the values sent on the channel
    so far (the other goroutine takes them out), [walkChan_closed] tells
    whether [close(r.walkChan)] has run. *)
Record receiver : Type := {
  dest : string;
  r_ctx : Context;
  r_files : gmap string Z;
  pipes : gmap Z PipeWriter;
  walkChan : list currentPath;
  walkChan_closed : bool;
}.

(** Where [func (r *receiver) run() error] is. *)
Inductive outcome : Type :=
| Running
| Returned (err : option error)
| Panicked (msg : string).

(** The receiver's side of one exchange: the [receiver], the counter [i] of
    [run], where [run] is, and the number of goroutines of [run] that wait
    for [dw.Wait()] to send [Fin]. *)
Record rsystem : Type := {
  rcv : receiver;
  r_i : Z;
  r_state : outcome;
  fins : nat;
}.

Definition with_receiver (g : receiver -> receiver) (sys : rsystem) : rsystem :=
  {| rcv := g (rcv sys); r_i := r_i sys; r_state := r_state sys; fins := fins sys |}.

Definition with_r_files (g : gmap string Z -> gmap string Z) (r : receiver) : receiver :=
  {| dest := dest r; r_ctx := r_ctx r; r_files := g (r_files r); pipes := pipes r;
     walkChan := walkChan r; walkChan_closed := walkChan_closed r |}.

Definition with_pipes (g : gmap Z PipeWriter -> gmap Z PipeWriter) (r : receiver) : receiver :=
  {| dest := dest r; r_ctx := r_ctx r; r_files := r_files r; pipes := g (pipes r);
     walkChan := walkChan r; walkChan_closed := walkChan_closed r |}.

Definition with_walkChan (cs : list currentPath) (c : bool) (r : receiver) : receiver :=
  {| dest := dest r; r_ctx := r_ctx r; r_files := r_files r; pipes := pipes r;
     walkChan := cs; walkChan_closed := c |}.

Definition with_r_ctx (g : Context -> Context) (r : receiver) : receiver :=
  {| dest := dest r; r_ctx := g (r_ctx r); r_files := r_files r; pipes := pipes r;
     walkChan := walkChan r; walkChan_closed := walkChan_closed r |}.

Definition with_r_i (n : Z) (sys : rsystem) : rsystem :=
  {| rcv := rcv sys; r_i := n; r_state := r_state sys; fins := fins sys |}.

Definition with_r_state (o : outcome) (sys : rsystem) : rsystem :=
  {| rcv := rcv sys; r_i := r_i sys; r_state := o; fins := fins sys |}.

Definition with_fins (g : nat -> nat) (sys : rsystem) : rsystem :=
  {| rcv := rcv sys; r_i := r_i sys; r_state := r_state sys; fins := g (fins sys) |}.

Inductive revent : Type :=
| REv_Recv (r : error + Packet)
    (* r.conn.RecvMsg(&p) returns *)
| REv_AsyncData (p : string) (sr : option error)
    (* the disk writer calls the function of getAsyncDataFunc on the path p *)
| REv_Fin (sr : option error).
    (* dw.Wait() returns in a goroutine of run *)

(** [close(r.walkChan)]: [false] when the channel is closed already (the
    statement panics). *)
Definition close_walkChan : M rsystem bool :=
  sys <- get ;;
  if walkChan_closed (rcv sys) then ret false
  else modify (with_receiver (with_walkChan (walkChan (rcv sys)) true)) ;;; ret true.

(** [r.walkChan <- cp]: [false] when the channel is closed (the statement
    panics). *)
Definition send_walkChan (cp : currentPath) : M rsystem bool :=
  sys <- get ;;
  if walkChan_closed (rcv sys) then ret false
  else modify (with_receiver (with_walkChan (walkChan (rcv sys) ++ [cp]) false)) ;;; ret true.

(** What one iteration of the loop of [run] comes to. *)
Inductive flow : Type :=
| Continue
| Return (err : option error)
| Panic (msg : string).

(** [case PACKET_STAT] of [run] *)
Definition run_stat (p : Packet) : M rsystem flow :=
  match p_Stat p with
  | None =>
      ok <- close_walkChan ;;
      if ok then modify (with_fins S) ;;; ret Continue
      else ret (Panic "close of closed channel")
  | Some st =>
      sys <- get ;;
      (if isRegular (Mode st)
       then modify (with_receiver (with_r_files (insert (Path st) (r_i sys))))
       else ret tt) ;;;
      modify (with_r_i (uint32 (r_i sys + 1))) ;;;
      ok <- send_walkChan {| path := Path st; f := st |} ;;
      if ok then ret Continue else ret (Panic "send on closed channel")
  end.

(** [case PACKET_DATA] of [run] *)
Definition run_data (p : Packet) : M rsystem flow :=
  sys <- get ;;
  match pipes (rcv sys) !! p_ID p with
  | None => ret (Return (Some (ErrInvalidFileRequestID (p_ID p))))
  | Some pw =>
      let '(pw', err) :=
        if Z.of_nat (length (p_Data p)) =? 0 then pw_Close pw
        else pw_Write pw (p_Data p) in
      modify (with_receiver (with_pipes (insert (p_ID p) pw'))) ;;;
      match err with
      | Some e => ret (Return (Some e))
      | None => ret Continue
      end
  end.

(** One iteration of the loop of [func (r *receiver) run() error]. *)
Definition r_run_iter (r : error + Packet) : M rsystem flow :=
  match r with
  | inl e => emit (Log_error e) ;;; ret Continue
  | inr p =>
      match p_Type p with
      | PACKET_STAT => run_stat p
      | PACKET_DATA => run_data p
      | PACKET_FIN => ret (Return None)
      | _ => ret Continue
      end
  end.

(** [run] while it has not returned; on return the deferred [cancel()] of
    [Receive] runs. *)
Definition r_run (r : error + Packet) : M rsystem unit :=
  sys <- get ;;
  match r_state sys with
  | Running =>
      out <- r_run_iter r ;;
      match out with
      | Continue => ret tt
      | Return err =>
          modify (with_receiver (with_r_ctx cancel)) ;;;
          modify (with_r_state (Returned err))
      | Panic msg => modify (with_r_state (Panicked msg))
      end
  | _ => ret tt
  end.

(** The function of [func (r *receiver) getAsyncDataFunc() writeToFunc] up
    to its [SendMsg]; what follows copies out of the read end of the pipe. *)
Definition asyncData (p : string) (sr : option error) : M rsystem (option error) :=
  sys <- get ;;
  match r_files (rcv sys) !! p with
  | None => ret (Some (ErrInvalidFileRequest p))
  | Some id =>
      modify (with_receiver (with_r_files (delete p))) ;;;
      modify (with_receiver (with_pipes (insert id Pipe))) ;;;
      SendMsg {| p_Type := PACKET_REQ; p_Stat := None; p_ID := id; p_Data := [] |} sr
  end.

(** The goroutine [go func() { dw.Wait(); r.conn.SendMsg(..PACKET_FIN..) }()]
    after [dw.Wait()]. *)
Definition send_fin (sr : option error) : M rsystem unit :=
  sys <- get ;;
  match fins sys with
  | O => ret tt
  | S n => SendMsg (Packet_of PACKET_FIN) sr ;;; modify (with_fins (fun _ => n))
  end.

(** One step of the receiver's side; a panic ends the process. *)
Definition rstep (ev : revent) : M rsystem unit :=
  sys <- get ;;
  match r_state sys with
  | Panicked _ => ret tt
  | _ =>
      match ev with
      | REv_Recv r => r_run r
      | REv_AsyncData p sr => asyncData p sr ;;; ret tt
      | REv_Fin sr => send_fin sr
      end
  end.

Definition rexec (evs : list revent) (w : rsystem * list effect) : rsystem * list effect :=
  fold_left (fun w ev => snd (rstep ev w)) evs w.

(** [func Receive(ctx, conn, dest) error] up to the loop of [run]. *)
Definition Receive (c : Context) (destPath : string) : rsystem * list effect :=
  let c := WithCancel Background false in
  ({| rcv := {| dest := destPath; r_ctx := c; r_files := ∅; pipes := ∅;
                walkChan := []; walkChan_closed := false |};
      r_i := 0;
      r_state := Running;
      fins := 0 |}, []).

(** ** The synchronized stream *)

(** Where a goroutine is in [func (ss *syncStream) SendMsg(m) error], or in
    the [RecvMsg] that [syncStream] inherits from the [Stream] it embeds. *)
Inductive call : Type :=
| Outside
| AtLock (m : Packet)             (* before ss.mu.Lock() *)
| Locked (m : Packet)             (* ss.mu.Lock() has returned *)
| InSendMsg (m : Packet)          (* inside ss.Stream.SendMsg(m) *)
| AtUnlock (err : option error)   (* before ss.mu.Unlock() *)
| InRecvMsg.                      (* inside ss.Stream.RecvMsg *)

(** What the underlying stream sees: its calls begin and end. *)
Inductive wire : Type :=
| Begin_SendMsg (g : nat) (m : Packet)
| End_SendMsg (g : nat) (err : option error)
| Begin_RecvMsg (g : nat)
| End_RecvMsg (g : nat).

(** [type syncStream struct { Stream; mu sync.Mutex }] with the goroutines
    that use it: [mu] tells whether the mutex is locked, [Stream] is the
    history of the calls made on the underlying stream. *)
Record syncStream : Type := {
  mu : bool;
  goroutines : list call;
  Stream : list wire;
}.

Inductive sevent : Type :=
| S_call (g : nat) (m : Packet)       (* g calls ss.SendMsg(m) *)
| S_lock (g : nat)                    (* ss.mu.Lock() returns in g *)
| S_begin (g : nat)                   (* g calls ss.Stream.SendMsg(m) *)
| S_end (g : nat) (err : option error) (* ss.Stream.SendMsg(m) returns err in g *)
| S_unlock (g : nat)                  (* ss.mu.Unlock() and return err in g *)
| S_recv (g : nat)                    (* g calls ss.RecvMsg, that is ss.Stream.RecvMsg *)
| S_recv_end (g : nat).               (* ss.Stream.RecvMsg returns in g *)

Definition at_ (g : nat) (c : call) (ss : syncStream) : syncStream :=
  {| mu := mu ss; goroutines := <[g := c]> (goroutines ss); Stream := Stream ss |}.

Definition with_mu (b : bool) (ss : syncStream) : syncStream :=
  {| mu := b; goroutines := goroutines ss; Stream := Stream ss |}.

Definition on_wire (w : wire) (ss : syncStream) : syncStream :=
  {| mu := mu ss; goroutines := goroutines ss; Stream := Stream ss ++ [w] |}.

(** One step of a goroutine; an event that the goroutine cannot do where it
    is (a [Lock] while the mutex is held) leaves the state as it is. *)
Definition sstep (ss : syncStream) (ev : sevent) : syncStream :=
  match ev with
  | S_call g m =>
      match goroutines ss !! g with
      | Some Outside => at_ g (AtLock m) ss
      | _ => ss
      end
  | S_lock g =>
      match goroutines ss !! g with
      | Some (AtLock m) => if mu ss then ss else at_ g (Locked m) (with_mu true ss)
      | _ => ss
      end
  | S_begin g =>
      match goroutines ss !! g with
      | Some (Locked m) => at_ g (InSendMsg m) (on_wire (Begin_SendMsg g m) ss)
      | _ => ss
      end
  | S_end g err =>
      match goroutines ss !! g with
      | Some (InSendMsg m) => at_ g (AtUnlock err) (on_wire (End_SendMsg g err) ss)
      | _ => ss
      end
  | S_unlock g =>
      match goroutines ss !! g with
      | Some (AtUnlock err) => at_ g Outside (with_mu false ss)
      | _ => ss
      end
  | S_recv g =>
      match goroutines ss !! g with
      | Some Outside => at_ g InRecvMsg (on_wire (Begin_RecvMsg g) ss)
      | _ => ss
      end
  | S_recv_end g =>
      match goroutines ss !! g with
      | Some InRecvMsg => at_ g Outside (on_wire (End_RecvMsg g) ss)
      | _ => ss
      end
  end.

Definition sexec (evs : list sevent) (ss : syncStream) : syncStream :=
  fold_left sstep evs ss.

(** [&syncStream{Stream: conn}] used by [n] goroutines. *)
Definition new_syncStream (n : nat) : syncStream :=
  {| mu := false; goroutines := replicate n Outside; Stream := [] |}.

(** The goroutine whose [SendMsg] on the underlying stream is in progress at
    the end of a history, [None] when a call begins inside another one or
    ends without having begun. *)
Definition track (open : option (option nat)) (w : wire) : option (option nat) :=
  match open, w with
  | None, _ => None
  | Some None, Begin_SendMsg g _ => Some (Some g)
  | Some (Some _), Begin_SendMsg _ _ => None
  | Some (Some g'), End_SendMsg g _ => if Nat.eqb g g' then Some None else None
  | Some None, End_SendMsg _ _ => None
  | Some o, _ => Some o
  end.

Definition in_progress (ws : list wire) : option (option nat) :=
  fold_left track ws (Some None).

(** No two calls of [SendMsg] on the underlying stream overlap. *)
Definition serial (ws : list wire) : bool :=
  match in_progress ws with Some _ => true | None => false end.

(** The packets of the [SendMsg] calls of a trace, in order. *)
Definition sent_packets (tr : list effect) : list Packet :=
  omap (fun e => match e with SendMsg_call p _ => Some p | _ => None end) tr.


(** ** Observations on runs *)

(** A size for packets to run the model on: the length of the payload and
    two bytes of header. *)
Definition Size0 (p : Packet) : Z := Z.of_nat (length (p_Data p)) + 2.

Definition Request (id : Z) : Packet :=
  {| p_Type := PACKET_REQ; p_Stat := None; p_ID := id; p_Data := [] |}.

Definition Data_ (id : Z) (dt : list byte) : Packet :=
  {| p_Type := PACKET_DATA; p_Stat := None; p_ID := id; p_Data := dt |}.

Definition Stat_ (st : Stat) : Packet :=
  {| p_Type := PACKET_STAT; p_Stat := Some st; p_ID := 0; p_Data := [] |}.

Definition file_stat (p : string) (size : Z) : Stat :=
  {| Path := p; Mode := 420; Uid := 0; Gid := 0; Size_ := size;
     ModTime := 0; Linkname := EmptyString |}.

Definition dir_stat (p : string) : Stat :=
  {| Path := p; Mode := Z.lor ModeDir 493; Uid := 0; Gid := 0; Size_ := 0;
     ModTime := 0; Linkname := EmptyString |}.

(** [Walk] calls the callback on an entry that has stat info, and the
    [SendMsg] of the callback succeeds. *)
Definition walk_of (st : Stat) : event :=
  Ev_Walk (Path st) {| Sys := Some st |} None None.

Ltac monad :=
  unfold bind, ret, get, put, modify, emit in *; simpl in *.

Ltac break_match :=
  match goal with
  | |- context [match ?x with _ => _ end] =>
      lazymatch x with
      | context [match _ with _ => _ end] => fail
      | _ => destruct x eqn:?
      end
  end.

(** Turns the boolean comparisons of the hypotheses into propositions. *)
Ltac bool_hyps :=
  repeat match goal with
  | H : negb _ = true |- _ => apply negb_true_iff in H
  | H : negb _ = false |- _ => apply negb_false_iff in H
  | H : Z.ltb _ _ = true |- _ => apply Z.ltb_lt in H
  | H : Z.ltb _ _ = false |- _ => apply Z.ltb_ge in H
  | H : Z.leb _ _ = true |- _ => apply Z.leb_le in H
  | H : Z.leb _ _ = false |- _ => apply Z.leb_gt in H
  | H : Z.eqb _ _ = true |- _ => apply Z.eqb_eq in H
  | H : Z.eqb _ _ = false |- _ => apply Z.eqb_neq in H
  end.

(** Runs a step of a machine symbolically, case by case, closing the cases
    with [tac]. *)
Ltac crunch tac :=
  repeat (monad; try (solve [tac]); try break_match).

(** The entry that a step of the sender announces, with the id it gets: the
    value of the counter [i] of [send] when [Walk] calls the callback on an
    entry without error and with stat info. *)
Definition announced (ev : event) (sys : system) : option (Z * Stat) :=
  match ev, walker sys with
  | Ev_Walk _ fi None _, Walking i =>
      match Sys fi with
      | Some st => Some (i, st)
      | None => None
      end
  | _, _ => None
  end.

(** The [Stat] with metadata that a step of the receiver handles, with the
    id it gets: the value of the counter [i] of [run] when the loop receives
    the packet. *)
Definition received (ev : revent) (sys : rsystem) : option (Z * Stat) :=
  match ev, r_state sys with
  | REv_Recv (inr p), Running =>
      match p_Type p, p_Stat p with
      | PACKET_STAT, Some st => Some (r_i sys, st)
      | _, _ => None
      end
  | _, _ => None
  end.

Section Ids.

Variable Size : Packet -> Z.

(** The entries announced in a run of the sender, in order, with their ids. *)
Fixpoint assigned (evs : list event) (w : system * list effect) : list (Z * Stat) :=
  match evs with
  | [] => []
  | ev :: evs' =>
      match announced ev (fst w) with
      | Some a => a :: assigned evs' (snd (step Size ev w))
      | None => assigned evs' (snd (step Size ev w))
      end
  end.

End Ids.

(** The [Stat]s with metadata handled in a run of the receiver, in order,
    with their ids. *)
Fixpoint associated (evs : list revent) (w : rsystem * list effect) : list (Z * Stat) :=
  match evs with
  | [] => []
  | ev :: evs' =>
      match received ev (fst w) with
      | Some a => a :: associated evs' (snd (rstep ev w))
      | None => associated evs' (snd (rstep ev w))
      end
  end.

(** The calls of [SendMsg] of a trace, in order, with what they returned. *)
Definition calls (tr : list effect) : list (Packet * option error) :=
  omap (fun e => match e with SendMsg_call p res => Some (p, res) | _ => None end) tr.

(** The events of the k-th file goroutine. *)
Definition of_task (k : nat) (ev : event) : bool :=
  match ev with
  | Ev_Open k' _ | Ev_Read k' _ _ _ | Ev_Last k' _ => Nat.eqb k k'
  | _ => false
  end.

(** The bytes that a step of the k-th file goroutine reads: those of a
    [Read] that returns while the goroutine is inside [io.CopyBuffer]. *)
Definition read_of (k : nat) (ev : event) (sys : system) : option (list byte) :=
  match ev with
  | Ev_Read k' dt _ _ =>
      match tasks sys !! k with
      | Some (Copying _) =>
          if Nat.eqb k k' && (Z.of_nat (length dt) <=? bufLen) then Some dt else None
      | _ => None
      end
  | _ => None
  end.

(** [len(dt) != 0] *)
Definition nonempty (dt : list byte) : bool := negb (Z.of_nat (length dt) =? 0).

Section Tasks.

Variable Size : Packet -> Z.

(** The effects of one step: a step does not look at the trace. *)
Definition effects_of (ev : event) (sys : system) : list effect :=
  snd (snd (step Size ev (sys, []))).

(** The calls of [SendMsg] that the k-th file goroutine makes in a run. *)
Fixpoint sent_by (k : nat) (evs : list event) (w : system * list effect)
  : list (Packet * option error) :=
  match evs with
  | [] => []
  | ev :: evs' =>
      (if of_task k ev then calls (effects_of ev (fst w)) else [])
      ++ sent_by k evs' (snd (step Size ev w))
  end.

(** What the k-th file goroutine reads from its file in a run, read by read. *)
Fixpoint reads (k : nat) (evs : list event) (w : system * list effect)
  : list (list byte) :=
  match evs with
  | [] => []
  | ev :: evs' =>
      match read_of k ev (fst w) with
      | Some dt => dt :: reads k evs' (snd (step Size ev w))
      | None => reads k evs' (snd (step Size ev w))
      end
  end.

End Tasks.

(** What a step of a file goroutine does, seen from the goroutine alone:
    where it is afterwards and the calls of [SendMsg] it has made.  The steps
    of the model come to this ([step_task] below). *)
Definition task_next (t : fileTask) (ev : event) : fileTask * list (Packet * option error) :=
  match t, ev with
  | Opening id _, Ev_Open _ None => (Copying id, [])
  | Opening id _, Ev_Open _ (Some _) => (Closing id, [])
  | Copying id, Ev_Read _ dt er sr =>
      let after_read :=
        match er with
        | None => Copying id
        | Some EOF => Closing id
        | Some e => Finished (Some e)
        end in
      if Z.of_nat (length dt) <=? bufLen then
        if nonempty dt then
          match sr with
          | Some e => (Finished (Some e), [(Data_ id dt, Some e)])
          | None => (after_read, [(Data_ id dt, None)])
          end
        else (after_read, [])
      else (t, [])
  | Closing id, Ev_Last _ sr => (Finished sr, [(Data_ id [], sr)])
  | _, _ => (t, [])
  end.

(** The frames of a file: one [Data] per read that is not empty, with the
    bytes of the read, then the zero-length [Data]. *)
Definition frames (id : Z) (rds : list (list byte)) : list (Packet * option error) :=
  map (fun dt => (Data_ id dt, None)) (List.filter nonempty rds) ++ [(Data_ id [], None)].

(** A run of the k-th file goroutine on a file that opens and whose reads
    return [rds], one after the other, then end of file, every [SendMsg]
    succeeding. *)
Definition transfer (k : nat) (rds : list (list byte)) : list event :=
  Ev_Open k None
  :: map (fun dt => Ev_Read k dt None None) rds
  ++ [Ev_Read k [] (Some EOF) None; Ev_Last k None].

(** A goroutine that holds the mutex of the stream. *)
Definition holder (c : call) : bool :=
  match c with
  | Locked _ | InSendMsg _ | AtUnlock _ => true
  | _ => false
  end.

(** What the model of the synchronized stream keeps true: at most one
    goroutine holds the mutex, the mutex is locked when one holds it, and the
    calls of [SendMsg] on the underlying stream have not overlapped, the one
    in progress being that of the goroutine that is inside it. *)
Definition sync_inv (ss : syncStream) : Prop :=
  (forall (g1 g2 : nat) (c1 c2 : call),
      goroutines ss !! g1 = Some c1 -> goroutines ss !! g2 = Some c2 ->
      holder c1 = true -> holder c2 = true -> g1 = g2) /\
  (forall (g : nat) (c : call),
      goroutines ss !! g = Some c -> holder c = true -> mu ss = true) /\
  (exists o : option nat,
      in_progress (Stream ss) = Some o /\
      forall g : nat, o = Some g <-> exists m : Packet, goroutines ss !! g = Some (InSendMsg m)).


Section Progress.

Variable Size : Packet -> Z.


End Progress.







(** [sender.updateProgress] statement by statement, when the callback is not
    nil, for goroutines that call it at once: where a goroutine is in
    [s.progressCurrent += size; s.progressCb(s.progressCurrent, last)]. *)
Inductive upd : Type :=
| Upd_begin (size : Z)              (* before the load of s.progressCurrent *)
| Upd_loaded (size : Z) (tmp : Z)   (* before the store of tmp + size *)
| Upd_stored                        (* before the call of s.progressCb *)
| Upd_end.

Record upd_state : Type := {
  upd_current : Z;                  (* s.progressCurrent *)
  upd_goroutines : list upd;
  upd_calls : list (Z * bool);      (* the calls of s.progressCb so far *)
}.

(** The next statement of the goroutine [g]. *)
Definition upd_step (u : upd_state) (g : nat) : upd_state :=
  match upd_goroutines u !! g with
  | Some (Upd_begin size) =>
      {| upd_current := upd_current u;
         upd_goroutines := <[g := Upd_loaded size (upd_current u)]> (upd_goroutines u);
         upd_calls := upd_calls u |}
  | Some (Upd_loaded size tmp) =>
      {| upd_current := int (tmp + size);
         upd_goroutines := <[g := Upd_stored]> (upd_goroutines u);
         upd_calls := upd_calls u |}
  | Some Upd_stored =>
      {| upd_current := upd_current u;
         upd_goroutines := <[g := Upd_end]> (upd_goroutines u);
         upd_calls := upd_calls u ++ [(upd_current u, false)] |}
  | _ => u
  end.

(** The place of a goroutine after another one, or itself, has moved. *)
Ltac old_pc H :=
  apply list_lookup_insert_Some in H;
  destruct H as [(_ & <- & _)|[_ H]].

(** Unfolds a step of the sender: the functions of the source. *)
Ltac unfold_step :=
  unfold step, run, run_iter, queue, send_walk, send_fn, send_return,
    sendFile_open, sendFile_read, sendFile_last, CopyBuffer_iter, Write, set_task,
    updateProgress, SendMsg.

(** Unfolds a step of the receiver. *)
Ltac unfold_rstep :=
  unfold rstep, r_run, r_run_iter, run_stat, run_data, close_walkChan,
    send_walkChan, asyncData, send_fin, SendMsg, pw_Write, pw_Close.

(** * Properties *)

#[local] Arguments step : simpl never.
#[local] Arguments exec : simpl never.

(** ** The sender's loop *)

Lemma exec_app Size evs1 evs2 w :
  exec Size (evs1 ++ evs2) w = exec Size evs2 (exec Size evs1 w).
Proof. unfold exec. apply fold_left_app. Qed.

Lemma exec_cons Size ev evs w :
  exec Size (ev :: evs) w = exec Size evs (snd (step Size ev w)).
Proof. reflexivity. Qed.

(** Once [run] has returned, no step changes what it returned. *)
Lemma step_returned Size ev w r :
  returned (fst w) = Some r -> returned (fst (snd (step Size ev w))) = Some r.
Proof.
  destruct w as [sys tr]. simpl. intros H.
  destruct ev; unfold_step; crunch ltac:(assumption || congruence).
Qed.

Lemma exec_returned Size evs w r :
  returned (fst w) = Some r -> returned (fst (exec Size evs w)) = Some r.
Proof.
  revert w. induction evs as [|ev evs IH]; intros w H; [assumption|].
  rewrite exec_cons. apply IH. apply step_returned. assumption.
Qed.

(** A [Request] for an id that is not in the table: [run] returns the
    error of [queue], and nothing else changes. *)
Lemma request_absent Size (sys : system) (tr : list effect)
    (p : Packet) (sr : option error) :
  returned sys = None ->
  p_Type p = PACKET_REQ ->
  files (snd_ sys) !! p_ID p = None ->
  let w := snd (step Size (Ev_Recv (inr p) sr) (sys, tr)) in
  returned (fst w) = Some (Some (ErrInvalidFileId (p_ID p))) /\
  files (snd_ (fst w)) = files (snd_ sys) /\
  tasks (fst w) = tasks sys /\
  sent_packets (snd w) = sent_packets tr.
Proof.
  intros Hrun Hty Habs. unfold_step. monad. rewrite Hrun. monad. rewrite Hty. monad.
  rewrite Habs.
  crunch ltac:(repeat split;
               (reflexivity || (unfold sent_packets; rewrite omap_app; apply app_nil_r))).
Qed.

(** A [Request] for an id of the table takes the id out and starts the
    goroutine of its file; [run] goes on. *)
Lemma request_consumes_id Size (sys : system) (tr : list effect)
    (p : Packet) (path : string) (sr : option error) :
  returned sys = None ->
  p_Type p = PACKET_REQ ->
  files (snd_ sys) !! p_ID p = Some path ->
  let w := snd (step Size (Ev_Recv (inr p) sr) (sys, tr)) in
  returned (fst w) = None /\
  files (snd_ (fst w)) = delete (p_ID p) (files (snd_ sys)) /\
  tasks (fst w) = tasks sys ++ [Opening (p_ID p) path] /\
  snd w = tr ++ [Go_sendFile (p_ID p) path].
Proof.
  intros Hrun Hty Hin. unfold_step. monad. rewrite Hrun. monad. rewrite Hty. monad.
  rewrite Hin. monad. repeat split; try reflexivity; assumption.
Qed.

(** C1.  A [Request] for an id that is not in the transfer table makes [run],
    and with it [Send], return the error "invalid file id ..": the table and
    the goroutines are left as they are, nothing is sent, and [Send] stays
    returned whatever comes next.  An id that is in the table is taken out
    by its [Request], so that a second [Request] for it meets the same
    error. *)
Theorem request_of_absent_id_fails Size (sys : system) (tr : list effect)
    (p : Packet) (sr : option error) :
  returned sys = None ->
  p_Type p = PACKET_REQ ->
  let w := snd (step Size (Ev_Recv (inr p) sr) (sys, tr)) in
  Contains (Error (ErrInvalidFileId (p_ID p))) "invalid file id" = true /\
  (files (snd_ sys) !! p_ID p = None ->
   returned (fst w) = Some (Some (ErrInvalidFileId (p_ID p))) /\
   files (snd_ (fst w)) = files (snd_ sys) /\
   tasks (fst w) = tasks sys /\
   sent_packets (snd w) = sent_packets tr /\
   (forall evs : list event,
       returned (fst (exec Size evs w)) = Some (Some (ErrInvalidFileId (p_ID p))))) /\
  (forall path : string,
      files (snd_ sys) !! p_ID p = Some path ->
      returned (fst w) = None /\
      files (snd_ (fst w)) !! p_ID p = None /\
      (forall (sr' : option error) (evs : list event),
          returned (fst (exec Size (Ev_Recv (inr p) sr' :: evs) w))
          = Some (Some (ErrInvalidFileId (p_ID p))))).
Proof.
  intros Hrun Hty w. split; [reflexivity|]. split.
  - intros Habs.
    destruct (request_absent Size sys tr p sr Hrun Hty Habs) as (E & Hf & Ht & Hs).
    repeat split; try assumption.
    intros evs. apply exec_returned. exact E.
  - intros path Hin.
    destruct (request_consumes_id Size sys tr p path sr Hrun Hty Hin) as (E & Hf & _).
    fold w in E, Hf.
    assert (Hgone : files (snd_ (fst w)) !! p_ID p = None).
    { rewrite Hf. apply lookup_delete_eq. }
    repeat split; try assumption.
    intros sr' evs. rewrite exec_cons. apply exec_returned.
    clearbody w. destruct w as [sys1 tr1]. simpl in E, Hgone.
    destruct (request_absent Size sys1 tr1 p sr' E Hty Hgone) as (E' & _). exact E'.
Qed.

Lemma request_of_absent_id_fails_witness :
  (let w := snd (step Size0 (Ev_Recv (inr (Request 7)) None)
                   (Send Background "/src" true)) in
   returned (fst w) = Some (Some (ErrInvalidFileId 7))) /\
  (let w0 := exec Size0 [walk_of (file_stat "a.txt" 4)] (Send Background "/src" true) in
   let w := exec Size0 [Ev_Recv (inr (Request 0)) None; Ev_Recv (inr (Request 0)) None] w0 in
   returned (fst w) = Some (Some (ErrInvalidFileId 0))).
Proof.
  split.
  - destruct (request_of_absent_id_fails Size0 (fst (Send Background "/src" true)) []
                (Request 7) None eq_refl eq_refl) as (_ & H & _).
    destruct (H eq_refl) as (H1 & _). exact H1.
  - pose (w0 := exec Size0 [walk_of (file_stat "a.txt" 4)] (Send Background "/src" true)).
    destruct (request_of_absent_id_fails Size0 (fst w0) (snd w0)
                (Request 0) None eq_refl eq_refl) as (_ & _ & H).
    destruct (H "a.txt" eq_refl) as (_ & _ & H2).
    exact (H2 None []).
Defined.

(** ** The walk of the sender *)

(** What a call of the walk callback on an entry with stat info does to the
    table and to the counter, in any state of the exchange. *)
Lemma send_walk_records Size (sys : system) (tr : list effect) (i : Z)
    (p : string) (st : Stat) (sr : option error) :
  walker sys = Walking i ->
  let w := snd (step Size (Ev_Walk p {| Sys := Some st |} None sr) (sys, tr)) in
  files (snd_ (fst w)) = <[i := Path st]> (files (snd_ sys)) /\
  walker (fst w) =
    match sr with
    | None => Walking (uint32 (i + 1))
    | Some e => Sent (Some (ErrWrapf ("failed to send stat " +:+ p) e))
    end /\
  returned (fst w) = returned sys /\
  tasks (fst w) = tasks sys.
Proof.
  intros Hw. unfold_step. monad. rewrite Hw.
  crunch ltac:(repeat split; congruence).
Qed.

Lemma uint32_small (x : Z) : 0 <= x < 2 ^ 32 -> uint32 x = x.
Proof. intros H. unfold uint32. apply Z.mod_small. exact H. Qed.

Lemma walk_from Size (sts : list Stat) :
  forall (sys : system) (tr : list effect) (i : Z),
    walker sys = Walking i ->
    0 <= i < 2 ^ 32 ->
    i + Z.of_nat (length sts) <= 2 ^ 32 ->
    let w := exec Size (map walk_of sts) (sys, tr) in
    walker (fst w) = Walking (uint32 (i + Z.of_nat (length sts))) /\
    (forall (n : nat) (st : Stat),
        sts !! n = Some st ->
        files (snd_ (fst w)) !! (i + Z.of_nat n) = Some (Path st)) /\
    (forall id : Z,
        id < i \/ i + Z.of_nat (length sts) <= id ->
        files (snd_ (fst w)) !! id = files (snd_ sys) !! id).
Proof.
  induction sts as [|st rest IH]; intros sys tr i Hw Hi Hlen.
  - simpl. rewrite Z.add_0_r, uint32_small by lia.
    split; [assumption|]. split; [intros n st' H; discriminate H | reflexivity].
  - cbn [map]. rewrite exec_cons.
    destruct (send_walk_records Size sys tr i (Path st) st None Hw) as (Hf & Hwk & _ & _).
    fold (walk_of st) in Hf, Hwk.
    destruct (snd (step Size (walk_of st) (sys, tr))) as [sys1 tr1] eqn:E1.
    simpl in Hf, Hwk.
    destruct rest as [|st2 rest'].
    + simpl. rewrite Hwk. split; [f_equal; f_equal; lia|].
      split.
      * intros [|n] st' H; [|discriminate H].
        injection H as <-. rewrite Z.add_0_r, Hf. apply lookup_insert_eq.
      * intros id Hid. rewrite Hf. apply lookup_insert_ne. lia.
    + assert (Hlen' : Z.of_nat (length (st :: st2 :: rest'))
                      = 1 + Z.of_nat (length (st2 :: rest'))).
      { cbn [length]. lia. }
      rewrite Hlen' in *.
      assert (Hpos : 0 < Z.of_nat (length (st2 :: rest'))) by (cbn [length]; lia).
      rewrite uint32_small in Hwk by lia.
      destruct (IH sys1 tr1 (i + 1) Hwk ltac:(lia) ltac:(lia)) as (IH1 & IH2 & IH3).
      split; [rewrite IH1; f_equal; f_equal; lia|].
      split.
      * intros [|n] st' H.
        -- injection H as <-. rewrite Z.add_0_r, IH3 by lia.
           rewrite Hf. apply lookup_insert_eq.
        -- replace (i + Z.of_nat (S n)) with (i + 1 + Z.of_nat n) by lia.
           apply IH2. exact H.
      * intros id Hid. rewrite IH3 by lia. rewrite Hf. apply lookup_insert_ne. lia.
Qed.



(** ** The ids of the two sides *)

Lemma uint32_succ (x : Z) : uint32 (uint32 x + 1) = uint32 (x + 1).
Proof. unfold uint32. rewrite Zplus_mod_idemp_l. reflexivity. Qed.

(** The counter of the receiver is never touched by the other goroutines. *)
Lemma rstep_r_i (ev : revent) (w : rsystem * list effect) :
  r_i (fst (snd (rstep ev w))) =
  match received ev (fst w) with
  | Some _ => uint32 (r_i (fst w) + 1)
  | None => r_i (fst w)
  end.
Proof.
  destruct w as [sys tr]. unfold rstep, received.
  destruct ev as [[e|p]|p sr|sr];
    unfold r_run, r_run_iter, run_stat, run_data, close_walkChan, send_walkChan,
      asyncData, send_fin, SendMsg, pw_Write, pw_Close;
    crunch ltac:(reflexivity || congruence).
Qed.

(** The counter of [send] is only touched by the callback of the walk. *)
Lemma step_walker Size (ev : event) (w : system * list effect) (i : Z) :
  walker (fst (snd (step Size ev w))) = Walking i ->
  match announced ev (fst w) with
  | Some (j, _) => i = uint32 (j + 1)
  | None => walker (fst w) = Walking i
  end.
Proof.
  destruct w as [sys tr]. unfold announced.
  destruct ev; unfold step, run, run_iter, queue, send_walk, send_fn, send_return,
    sendFile_open, sendFile_read, sendFile_last, CopyBuffer_iter, Write, set_task,
    updateProgress, SendMsg;
    crunch ltac:(tauto || congruence).
Qed.

(** The n-th value of a counter that starts at [i]. *)
Lemma iter_uint32 (n : nat) :
  Nat.iter n (fun x => uint32 (x + 1)) 0 = uint32 (Z.of_nat n).
Proof.
  induction n as [|n IH].
  - reflexivity.
  - rewrite Nat.iter_succ, IH, uint32_succ. f_equal. lia.
Qed.

Lemma assigned_after_send Size (evs : list event) :
  forall (w : system * list effect) (e : option error),
    walker (fst w) = Sent e -> assigned Size evs w = [].
Proof.
  induction evs as [|ev evs IH]; intros w e Hw; [reflexivity|].
  cbn [assigned].
  assert (Ha : announced ev (fst w) = None).
  { unfold announced. rewrite Hw. destruct ev; try reflexivity. destruct err; reflexivity. }
  rewrite Ha.
  destruct (walker (fst (snd (step Size ev w)))) as [i|e'] eqn:E.
  - apply step_walker in E. rewrite Ha in E. congruence.
  - apply (IH _ e'). exact E.
Qed.

(** The sender gives its entries the successive values of its counter. *)
Lemma assigned_counter Size (evs : list event) :
  forall (w : system * list effect) (i : Z) (n : nat) (id : Z) (st : Stat),
    walker (fst w) = Walking i ->
    assigned Size evs w !! n = Some (id, st) ->
    id = Nat.iter n (fun x => uint32 (x + 1)) i.
Proof.
  induction evs as [|ev evs IH]; intros w i n id st Hw Hn; [discriminate Hn|].
  cbn [assigned] in Hn.
  destruct (walker (fst (snd (step Size ev w)))) as [i'|e'] eqn:E.
  - pose proof (step_walker Size ev w i' E) as Hs.
    destruct (announced ev (fst w)) as [[j st0]|] eqn:Ha.
    + assert (j = i).
      { unfold announced in Ha. rewrite Hw in Ha.
        destruct ev; try discriminate Ha. destruct err; [discriminate Ha|].
        destruct (Sys fi); [|discriminate Ha]. congruence. }
      subst j. destruct n as [|n].
      * simpl in Hn |- *. congruence.
      * simpl in Hn. rewrite Nat.iter_succ_r. subst i'. eapply IH; eassumption.
    + assert (i' = i) by congruence. subst i'. eapply IH; eassumption.
  - rewrite (assigned_after_send Size evs _ e' E) in Hn.
    destruct (announced ev (fst w)) as [a|] eqn:Ha; [|discriminate Hn].
    destruct n as [|n]; [|discriminate Hn].
    simpl in Hn. injection Hn as ->.
    unfold announced in Ha. rewrite Hw in Ha.
    destruct ev; try discriminate Ha. destruct err; [discriminate Ha|].
    destruct (Sys fi); [|discriminate Ha]. simpl. congruence.
Qed.

(** The receiver gives the [Stat]s it handles the successive values of its
    counter. *)
Lemma associated_counter (evs : list revent) :
  forall (w : rsystem * list effect) (n : nat) (id : Z) (st : Stat),
    associated evs w !! n = Some (id, st) ->
    id = Nat.iter n (fun x => uint32 (x + 1)) (r_i (fst w)).
Proof.
  induction evs as [|ev evs IH]; intros w n id st Hn; [discriminate Hn|].
  cbn [associated] in Hn.
  pose proof (rstep_r_i ev w) as Hi.
  destruct (received ev (fst w)) as [[j st0]|] eqn:Hr.
  - assert (j = r_i (fst w)).
    { unfold received in Hr. destruct ev as [[e|p]| |]; try discriminate Hr.
      destruct (r_state (fst w)); try discriminate Hr.
      destruct (p_Type p); try discriminate Hr.
      destruct (p_Stat p); [|discriminate Hr]. congruence. }
    subst j. destruct n as [|n].
    + simpl in Hn |- *. congruence.
    + simpl in Hn. rewrite Nat.iter_succ_r, <- Hi. eapply IH; eassumption.
  - rewrite <- Hi. eapply IH; eassumption.
Qed.

(** The entry that a step announces is recorded in the table under its id. *)
Lemma announced_records Size (ev : event) (sys : system) (tr : list effect)
    (i : Z) (st : Stat) :
  announced ev sys = Some (i, st) ->
  files (snd_ (fst (snd (step Size ev (sys, tr))))) = <[i := Path st]> (files (snd_ sys)).
Proof.
  unfold announced. intros Ha.
  destruct ev as [|p fi [e|] sr| | | |]; try discriminate Ha.
  destruct (walker sys) as [j|] eqn:Hw; [|discriminate Ha].
  destruct fi as [[st'|]]; simpl in Ha; [|discriminate Ha].
  injection Ha as -> ->.
  destruct (send_walk_records Size sys tr i p st sr Hw) as (H & _). exact H.
Qed.

(** The [Stat] that a step of the receiver handles is recorded in its table
    under its id when it is a regular file, and not recorded otherwise. *)
Lemma received_records (ev : revent) (sys : rsystem) (tr : list effect)
    (i : Z) (st : Stat) :
  received ev sys = Some (i, st) ->
  r_files (rcv (fst (snd (rstep ev (sys, tr)))))
  = if isRegular (Mode st) then <[Path st := i]> (r_files (rcv sys))
    else r_files (rcv sys).
Proof.
  unfold received. intros Hr.
  destruct ev as [[e|p]| |]; try discriminate Hr.
  destruct (r_state sys) eqn:Hs; try discriminate Hr.
  destruct (p_Type p) eqn:Hty; try discriminate Hr.
  destruct (p_Stat p) as [st'|] eqn:Hst; [|discriminate Hr].
  injection Hr as <- <-.
  unfold_rstep. monad. rewrite Hs. monad. rewrite Hs, Hty. monad. rewrite Hst.
  crunch ltac:(reflexivity).
Qed.

(** C2, as the specification states it, does not hold: the id of a
    directory is inserted into the table. *)
Lemma directory_id_is_recorded :
  ~ (forall (sys : system) (tr : list effect) (i : Z) (st : Stat),
        walker sys = Walking i ->
        isRegular (Mode st) = false ->
        files (snd_ (fst (snd (step Size0 (walk_of st) (sys, tr))))) !! i
        = files (snd_ sys) !! i).
Proof.
  intros H.
  specialize (H (fst (Send Background "/src" false)) [] 0 (dir_stat "sub") eq_refl eq_refl).
  vm_compute in H. discriminate H.
Qed.

(** C2, as the code has it.  The callback of the walk gives the entry the
    value of the counter and records the path of the entry under it, whatever
    the type of the entry is.  The counter starts at 0 and goes up by one
    per entry, modulo 2^32: in any run of [Send] the n-th entry announced
    has the id n.  So, after a walk of at most 2^32 entries, the table maps
    n to the path of the n-th entry for every n, directories, symlinks,
    devices and pipes included, and holds nothing else. *)
Theorem walk_records_every_entry Size (sts : list Stat) (c : Context)
    (rootPath : string) (cb : bool) :
  Z.of_nat (length sts) <= 2 ^ 32 ->
  let w := exec Size (map walk_of sts) (Send c rootPath cb) in
  walker (fst w) = Walking (uint32 (Z.of_nat (length sts))) /\
  (forall (n : nat) (st : Stat),
      sts !! n = Some st ->
      files (snd_ (fst w)) !! Z.of_nat n = Some (Path st)) /\
  (forall id : Z,
      id < 0 \/ Z.of_nat (length sts) <= id ->
      files (snd_ (fst w)) !! id = None) /\
  (forall (evs : list event) (n : nat) (id : Z) (st : Stat),
      assigned Size evs (Send c rootPath cb) !! n = Some (id, st) ->
      id = uint32 (Z.of_nat n)) /\
  (forall (sys : system) (tr : list effect) (ev : event) (i : Z) (st : Stat),
      announced ev sys = Some (i, st) ->
      files (snd_ (fst (snd (step Size ev (sys, tr))))) = <[i := Path st]> (files (snd_ sys))).
Proof.
  intros Hlen.
  pose proof (walk_from Size sts (fst (Send c rootPath cb)) [] 0 eq_refl
                ltac:(lia) ltac:(lia)) as H.
  cbv zeta in H. change (fst (Send c rootPath cb), []) with (Send c rootPath cb) in H.
  destruct H as (H1 & H2 & H3).
  split; [exact H1|]. split; [|split; [|split]].
  - intros n st H. apply (H2 n st H).
  - intros id Hid. rewrite (H3 id Hid). reflexivity.
  - intros evs n id st Hn.
    apply (assigned_counter Size evs _ 0) in Hn; [|reflexivity].
    rewrite iter_uint32 in Hn. exact Hn.
  - intros sys tr ev i st Ha. apply (announced_records Size ev sys tr i st Ha).
Qed.

Lemma walk_records_every_entry_witness :
  let sts := [dir_stat "sub"; file_stat "sub/a.txt" 4] in
  let w := exec Size0 (map walk_of sts) (Send Background "/src" false) in
  isRegular (Mode (dir_stat "sub")) = false /\
  files (snd_ (fst w)) !! 0 = Some "sub" /\
  files (snd_ (fst w)) !! 1 = Some "sub/a.txt".
Proof.
  split; [reflexivity|].
  destruct (walk_records_every_entry Size0 [dir_stat "sub"; file_stat "sub/a.txt" 4]
              Background "/src" false) as (_ & H & _).
  - vm_compute. discriminate.
  - split; [exact (H 0%nat _ eq_refl) | exact (H 1%nat _ eq_refl)].
Defined.

(** C5.  In any run of [Send] and any run of [Receive], the id that the
    receiver gives to the n-th [Stat] with metadata that it handles is the id
    that the sender gave to the n-th entry that it announced: both are the
    n-th value of a 32-bit counter that starts at 0 and goes up by one per
    entry. *)
Theorem ids_agree Size (evs : list event) (revs : list revent)
    (c c' : Context) (rootPath destPath : string) (cb : bool)
    (n : nat) (ids idr : Z) (sts str : Stat) :
  assigned Size evs (Send c rootPath cb) !! n = Some (ids, sts) ->
  associated revs (Receive c' destPath) !! n = Some (idr, str) ->
  idr = ids /\ ids = uint32 (Z.of_nat n).
Proof.
  intros Hs Hr.
  apply (assigned_counter Size evs _ 0) in Hs; [|reflexivity].
  apply associated_counter in Hr. simpl in Hr.
  rewrite iter_uint32 in Hs, Hr. split; congruence.
Qed.

Lemma ids_agree_witness :
  let sts := [dir_stat "sub"; file_stat "sub/a.txt" 4] in
  let evs := map walk_of sts in
  let revs := map (fun st => REv_Recv (inr (Stat_ st))) sts in
  assigned Size0 evs (Send Background "/src" false) !! 1%nat
  = Some (1, file_stat "sub/a.txt" 4) /\
  associated revs (Receive Background "/dst") !! 1%nat
  = Some (1, file_stat "sub/a.txt" 4) /\
  (1 = 1 /\ 1 = uint32 (Z.of_nat 1)).
Proof.
  intros sts evs revs.
  split; [reflexivity|]. split; [reflexivity|].
  apply (ids_agree Size0 evs revs Background Background "/src" "/dst" false 1
           1 1 (file_stat "sub/a.txt" 4) (file_stat "sub/a.txt" 4)); reflexivity.
Defined.

(** ** The goroutine of a file *)


(** The other goroutines leave the k-th file goroutine where it is. *)
Lemma step_other_task Size (k : nat) (ev : event) (sys : system)
    (tr : list effect) (t : fileTask) :
  of_task k ev = false ->
  tasks sys !! k = Some t ->
  tasks (fst (snd (step Size ev (sys, tr)))) !! k = Some t.
Proof.
  intros Hk Ht.
  destruct ev; unfold_step; simpl in Hk;
    crunch ltac:(assumption
                 || (apply lookup_app_l_Some; assumption)
                 || (rewrite list_lookup_insert_ne;
                     [assumption | intros ->; rewrite Nat.eqb_refl in Hk; discriminate Hk])).
Qed.

(** A step of the k-th file goroutine, seen from the goroutine. *)
Lemma step_task Size (k : nat) (ev : event) (sys : system) (tr : list effect)
    (t : fileTask) :
  of_task k ev = true ->
  tasks sys !! k = Some t ->
  tasks (fst (snd (step Size ev (sys, tr)))) !! k = Some (fst (task_next t ev)) /\
  calls (effects_of Size ev sys) = snd (task_next t ev).
Proof.
  intros Hk Ht. pose proof (lookup_lt_Some _ _ _ Ht) as Hlt.
  unfold effects_of, task_next, nonempty, Data_.
  destruct ev; simpl in Hk; try discriminate Hk;
    apply Nat.eqb_eq in Hk; subst k0; unfold_step; monad; rewrite Ht;
    destruct t; monad;
    crunch ltac:((split; [first [assumption | apply list_lookup_insert_eq; assumption]
                         | reflexivity])
                 || congruence || (exfalso; bool_hyps; lia)).
Qed.

Lemma task_next_finished (r : option error) (ev : event) :
  task_next (Finished r) ev = (Finished r, []).
Proof. destruct ev; reflexivity. Qed.

(** One step of a run, seen from the k-th file goroutine. *)
Lemma run_task_step Size (k : nat) (ev : event) (evs : list event)
    (sys : system) (tr : list effect) (t : fileTask) :
  tasks sys !! k = Some t ->
  let w' := snd (step Size ev (sys, tr)) in
  let t' := if of_task k ev then fst (task_next t ev) else t in
  tasks (fst w') !! k = Some t' /\
  sent_by Size k (ev :: evs) (sys, tr)
  = (if of_task k ev then snd (task_next t ev) else []) ++ sent_by Size k evs w'.
Proof.
  intros Ht. cbn [sent_by fst]. destruct (of_task k ev) eqn:Hk.
  - destruct (step_task Size k ev sys tr t Hk Ht) as [H1 H2].
    split; [exact H1 | rewrite H2; reflexivity].
  - split; [apply step_other_task; assumption | reflexivity].
Qed.

(** A goroutine that has returned does nothing more. *)
Lemma finished_stays Size (k : nat) (r : option error) (evs : list event) :
  forall w : system * list effect,
    tasks (fst w) !! k = Some (Finished r) ->
    tasks (fst (exec Size evs w)) !! k = Some (Finished r) /\
    sent_by Size k evs w = [] /\
    reads Size k evs w = [].
Proof.
  induction evs as [|ev evs IH]; intros [sys tr] Ht; simpl in Ht.
  - repeat split; assumption.
  - destruct (run_task_step Size k ev evs sys tr _ Ht) as [H1 H2].
    rewrite task_next_finished in H1, H2.
    rewrite exec_cons, H2. cbn [reads fst].
    assert (Hr : read_of k ev sys = None).
    { unfold read_of. rewrite Ht. destruct ev; reflexivity. }
    rewrite Hr.
    assert (H1' : tasks (fst (snd (step Size ev (sys, tr)))) !! k = Some (Finished r)).
    { destruct (of_task k ev); exact H1. }
    destruct (IH _ H1') as (I1 & I2 & I3).
    rewrite I2, I3. repeat split; [exact I1 | destruct (of_task k ev); reflexivity].
Qed.

(** A goroutine that is before its last statement and returns nil has
    sent the zero-length [Data], and nothing else. *)
Lemma closing_run Size (k : nat) (id : Z) (evs : list event) :
  forall w : system * list effect,
    tasks (fst w) !! k = Some (Closing id) ->
    tasks (fst (exec Size evs w)) !! k = Some (Finished None) ->
    sent_by Size k evs w = [(Data_ id [], None)] /\
    reads Size k evs w = [].
Proof.
  induction evs as [|ev evs IH]; intros [sys tr] Ht Hfin; simpl in Ht.
  - unfold exec in Hfin. simpl in Hfin. congruence.
  - destruct (run_task_step Size k ev evs sys tr _ Ht) as [H1 H2].
    rewrite exec_cons in Hfin. rewrite H2. cbn [reads fst].
    assert (Hr : read_of k ev sys = None).
    { unfold read_of. rewrite Ht. destruct ev; reflexivity. }
    rewrite Hr.
    destruct (of_task k ev) eqn:Hk; [destruct ev; try discriminate Hk|];
      simpl in H1 |- *; try (apply IH; assumption).
    destruct (finished_stays Size k sr evs _ H1) as (F1 & F2 & F3).
    rewrite F2, F3. split; [|reflexivity].
    assert (sr = None) by congruence. subst sr. reflexivity.
Qed.

Lemma copying_run Size (k : nat) (id : Z) (evs : list event) :
  forall w : system * list effect,
    tasks (fst w) !! k = Some (Copying id) ->
    tasks (fst (exec Size evs w)) !! k = Some (Finished None) ->
    sent_by Size k evs w = frames id (reads Size k evs w) /\
    Forall (fun dt => Z.of_nat (length dt) <= bufLen) (reads Size k evs w).
Proof.
  induction evs as [|ev evs IH]; intros [sys tr] Ht Hfin; simpl in Ht.
  - unfold exec in Hfin. simpl in Hfin. congruence.
  - destruct (run_task_step Size k ev evs sys tr _ Ht) as [H1 H2].
    rewrite exec_cons in Hfin. rewrite H2. cbn [reads fst].
    unfold read_of. rewrite Ht.
    destruct (of_task k ev) eqn:Hk.
    + destruct ev; try discriminate Hk; cbn [task_next fst snd app] in H1 |- *;
        try (apply IH; assumption).
      cbn [of_task] in Hk. rewrite Hk. cbn [andb].
      destruct (Z.of_nat (length dt) <=? bufLen) eqn:Hlen;
        cbn [fst snd app] in H1 |- *; [|apply IH; assumption].
      apply Z.leb_le in Hlen.
      assert (Hgo : forall t' : fileTask,
                 tasks (fst (snd (step Size (Ev_Read k0 dt er sr) (sys, tr)))) !! k = Some t' ->
                 t' = match er with
                      | None => Copying id
                      | Some EOF => Closing id
                      | Some e => Finished (Some e)
                      end ->
                 sent_by Size k evs (snd (step Size (Ev_Read k0 dt er sr) (sys, tr)))
                 = frames id (reads Size k evs (snd (step Size (Ev_Read k0 dt er sr) (sys, tr)))) /\
                 Forall (fun dt => Z.of_nat (length dt) <= bufLen)
                   (reads Size k evs (snd (step Size (Ev_Read k0 dt er sr) (sys, tr))))).
      { intros t' Ht' ->.
        destruct er as [e|]; [|apply IH; assumption].
        destruct e;
          try (destruct (finished_stays Size k _ evs _ Ht') as (F1 & _); congruence).
        destruct (closing_run Size k id evs _ Ht' Hfin) as (C1 & C2).
        rewrite C1, C2. split; [reflexivity | constructor]. }
      unfold frames. cbn [List.filter].
      destruct (nonempty dt) eqn:Hne; cbn [fst snd app map] in H1 |- *.
      * destruct sr as [e|]; cbn [fst snd app] in H1 |- *.
        -- destruct (finished_stays Size k _ evs _ H1) as (F1 & _). congruence.
        -- destruct (Hgo _ H1 eq_refl) as [G1 G2].
           rewrite G1. split; [reflexivity | constructor; assumption].
      * destruct (Hgo _ H1 eq_refl) as [G1 G2].
        rewrite G1. split; [reflexivity | constructor; assumption].
    + assert (Hr : match ev with
                   | Ev_Read k' dt _ _ =>
                       if Nat.eqb k k' && (Z.of_nat (length dt) <=? bufLen)
                       then Some dt else None
                   | _ => None
                   end = None).
      { destruct ev; try reflexivity. cbn [of_task] in Hk. rewrite Hk. reflexivity. }
      rewrite Hr. apply IH; assumption.
Qed.

Lemma opening_run Size (k : nat) (id : Z) (p : string) (evs : list event) :
  forall w : system * list effect,
    tasks (fst w) !! k = Some (Opening id p) ->
    tasks (fst (exec Size evs w)) !! k = Some (Finished None) ->
    sent_by Size k evs w = frames id (reads Size k evs w) /\
    Forall (fun dt => Z.of_nat (length dt) <= bufLen) (reads Size k evs w).
Proof.
  induction evs as [|ev evs IH]; intros [sys tr] Ht Hfin; simpl in Ht.
  - unfold exec in Hfin. simpl in Hfin. congruence.
  - destruct (run_task_step Size k ev evs sys tr _ Ht) as [H1 H2].
    rewrite exec_cons in Hfin. rewrite H2. cbn [reads fst].
    assert (Hr : read_of k ev sys = None).
    { unfold read_of. rewrite Ht. destruct ev; reflexivity. }
    rewrite Hr.
    destruct (of_task k ev) eqn:Hk; [destruct ev; try discriminate Hk|];
      cbn [task_next fst snd app] in H1 |- *; try (apply IH; assumption).
    destruct err as [e|]; cbn [fst snd app] in H1 |- *.
    + destruct (closing_run Size k id evs _ H1 Hfin) as (C1 & C2).
      rewrite C1, C2. split; [reflexivity | constructor].
    + apply copying_run; assumption.
Qed.

Lemma reading_run Size (k : nat) (id : Z) (rds : list (list byte)) (rest : list event) :
  forall w : system * list effect,
    tasks (fst w) !! k = Some (Copying id) ->
    Forall (fun dt => Z.of_nat (length dt) <= bufLen) rds ->
    let w' := exec Size (map (fun dt => Ev_Read k dt None None) rds) w in
    tasks (fst w') !! k = Some (Copying id) /\
    reads Size k (map (fun dt => Ev_Read k dt None None) rds ++ rest) w
    = rds ++ reads Size k rest w'.
Proof.
  induction rds as [|dt rds IH]; intros [sys tr] Ht Hall; simpl in Ht.
  - split; [exact Ht | reflexivity].
  - cbn [map app reads fst]. rewrite exec_cons.
    inversion Hall as [|? ? Hdt Hall']; subst. apply Z.leb_le in Hdt.
    unfold read_of. rewrite Ht, Nat.eqb_refl, Hdt. cbn [andb].
    destruct (step_task Size k (Ev_Read k dt None None) sys tr _
                ltac:(apply Nat.eqb_refl) Ht) as [H1 _].
    cbn [task_next] in H1. rewrite Hdt in H1.
    assert (H1' : tasks (fst (snd (step Size (Ev_Read k dt None None) (sys, tr)))) !! k
                  = Some (Copying id)) by (destruct (nonempty dt); exact H1).
    destruct (IH _ H1' Hall') as [I1 I2].
    split; [exact I1 | rewrite I2; reflexivity].
Qed.

Lemma frames_eof (id : Z) (rds : list (list byte)) :
  frames id (rds ++ [[]]) = frames id rds.
Proof.
  unfold frames. rewrite List.filter_app. simpl. rewrite app_nil_r. reflexivity.
Qed.

(** C3, as the code has it.  The goroutine of a file, when it returns nil,
    has sent one [Data] with the bytes of each read that was not empty, of
    at most 32768 bytes, and then one zero-length [Data], its last message;
    when [os.Open] fails it sends the zero-length [Data] alone.  And it does
    return nil, having sent these, on a file that opens and is read to the
    end while every [SendMsg] succeeds.  Nothing is said of a goroutine that
    returns an error. *)
Theorem sendFile_frames Size (k : nat) (id : Z) (p : string)
    (w : system * list effect) :
  tasks (fst w) !! k = Some (Opening id p) ->
  (forall evs : list event,
      tasks (fst (exec Size evs w)) !! k = Some (Finished None) ->
      sent_by Size k evs w = frames id (reads Size k evs w) /\
      Forall (fun dt => Z.of_nat (length dt) <= bufLen) (reads Size k evs w)) /\
  (forall (e : error) (evs : list event),
      tasks (fst (exec Size (Ev_Open k (Some e) :: evs) w)) !! k = Some (Finished None) ->
      sent_by Size k (Ev_Open k (Some e) :: evs) w = [(Data_ id [], None)]) /\
  (forall rds : list (list byte),
      Forall (fun dt => Z.of_nat (length dt) <= bufLen) rds ->
      tasks (fst (exec Size (transfer k rds) w)) !! k = Some (Finished None) /\
      sent_by Size k (transfer k rds) w = frames id rds).
Proof.
  intros Ht. split; [|split].
  - intros evs Hfin. apply (opening_run Size k id p evs w Ht Hfin).
  - intros e evs Hfin. destruct w as [sys tr]. simpl in Ht.
    destruct (run_task_step Size k (Ev_Open k (Some e)) evs sys tr _ Ht) as [H1 H2].
    cbn [of_task] in H1, H2. rewrite Nat.eqb_refl in H1, H2.
    cbn [task_next fst snd app] in H1, H2.
    rewrite exec_cons in Hfin.
    destruct (closing_run Size k id evs _ H1 Hfin) as (C1 & _).
    rewrite H2, C1. reflexivity.
  - intros rds Hall.
    assert (Hfin : tasks (fst (exec Size (transfer k rds) w)) !! k = Some (Finished None)
                   /\ reads Size k (transfer k rds) w = rds ++ [[]]).
    { destruct w as [sys tr]. simpl in Ht.
      unfold transfer. rewrite exec_cons, exec_app. cbn [reads fst read_of].
      destruct (step_task Size k (Ev_Open k None) sys tr _ ltac:(apply Nat.eqb_refl) Ht)
        as [H1 _].
      cbn [task_next fst] in H1.
      destruct (reading_run Size k id rds
                  [Ev_Read k [] (Some EOF) None; Ev_Last k None] _ H1 Hall) as [H2 R2].
      rewrite R2.
      destruct (exec Size (map _ rds) _) as [sys2 tr2]. simpl in H2.
      rewrite exec_cons. cbn [reads fst].
      unfold read_of at 1. rewrite H2, Nat.eqb_refl. cbn [andb length Z.of_nat Z.leb].
      destruct (step_task Size k (Ev_Read k [] (Some EOF) None) sys2 tr2 _
                  ltac:(apply Nat.eqb_refl) H2) as [H3 _].
      cbn in H3.
      destruct (snd (step Size (Ev_Read k [] (Some EOF) None) (sys2, tr2))) as [sys3 tr3].
      simpl in H3. rewrite exec_cons. cbn [read_of].
      destruct (step_task Size k (Ev_Last k None) sys3 tr3 _ ltac:(apply Nat.eqb_refl) H3)
        as [H4 _].
      split; [exact H4 | reflexivity]. }
    destruct Hfin as [Hfin Hrds]. split; [exact Hfin|].
    destruct (opening_run Size k id p _ w Ht Hfin) as [Hs _].
    rewrite Hs, Hrds. apply frames_eof.
Qed.

Lemma sendFile_frames_witness :
  let w := exec Size0 [walk_of (file_stat "a.txt" 4); Ev_Recv (inr (Request 0)) None]
             (Send Background "/src" true) in
  sent_by Size0 0 (transfer 0 [[x61; x62; x63; x64]]) w
  = [(Data_ 0 [x61; x62; x63; x64], None); (Data_ 0 [], None)].
Proof.
  intros w.
  destruct (sendFile_frames Size0 0 0 "a.txt" w eq_refl) as (H & _ & _).
  destruct (H (transfer 0 [[x61; x62; x63; x64]]) eq_refl) as [H1 _].
  exact H1.
Defined.

(** C3, as the specification states it, does not hold for a file that
    opens and whose read fails: the goroutine has sent a [Data] that is not
    empty, returns the error of the read, and sends no zero-length [Data],
    now or later. *)
Lemma read_error_skips_terminator :
  let w := exec Size0 [walk_of (file_stat "a.txt" 4); Ev_Recv (inr (Request 0)) None]
             (Send Background "/src" true) in
  let evs := [Ev_Open 0 None; Ev_Read 0 [x61; x62] (Some (ErrOther "read error")) None] in
  tasks (fst w) !! 0%nat = Some (Opening 0 "a.txt") /\
  tasks (fst (exec Size0 evs w)) !! 0%nat = Some (Finished (Some (ErrOther "read error"))) /\
  sent_by Size0 0 evs w = [(Data_ 0 [x61; x62], None)] /\
  (forall evs' : list event, sent_by Size0 0 evs' (exec Size0 evs w) = []).
Proof.
  intros w evs.
  assert (E : tasks (fst (exec Size0 evs w)) !! 0%nat
              = Some (Finished (Some (ErrOther "read error")))) by reflexivity.
  repeat split; try reflexivity.
  intros evs'. destruct (finished_stays Size0 0 _ evs' _ E) as (_ & F & _). exact F.
Qed.

(** ** The receiver's loop *)

#[local] Arguments rstep : simpl never.
#[local] Arguments rexec : simpl never.

Lemma rexec_cons (ev : revent) (evs : list revent) (w : rsystem * list effect) :
  rexec (ev :: evs) w = rexec evs (snd (rstep ev w)).
Proof. reflexivity. Qed.





(** ** Receive errors *)

(** C6.  A [RecvMsg] that fails changes nothing on the sender's side, and on
    the receiver's side only logs the error: neither loop returns because of
    it, a run is what it would be without the failed receives, and a [Send]
    or a [Receive] whose receives all fail never returns. *)
Theorem recv_error_never_returns :
  (forall Size (w : system * list effect) (e : error) (sr : option error),
      snd (step Size (Ev_Recv (inl e) sr) w) = w) /\
  (forall (sys : rsystem) (tr : list effect) (e : error),
      snd (rstep (REv_Recv (inl e)) (sys, tr))
      = (sys, match r_state sys with Running => tr ++ [Log_error e] | _ => tr end)) /\
  (forall Size (errs : list error) (sr : option error) (c : Context)
          (rootPath : string) (cb : bool),
      exec Size (map (fun e => Ev_Recv (inl e) sr) errs) (Send c rootPath cb)
      = Send c rootPath cb) /\
  (forall (errs : list error) (c : Context) (destPath : string),
      r_state (fst (rexec (map (fun e => REv_Recv (inl e)) errs) (Receive c destPath)))
      = Running).
Proof.
  assert (S1 : forall Size (w : system * list effect) (e : error) (sr : option error),
             snd (step Size (Ev_Recv (inl e) sr) w) = w).
  { intros Size [sys tr] e sr. unfold_step. crunch ltac:(reflexivity). }
  assert (R1 : forall (sys : rsystem) (tr : list effect) (e : error),
             snd (rstep (REv_Recv (inl e)) (sys, tr))
             = (sys, match r_state sys with Running => tr ++ [Log_error e] | _ => tr end)).
  { intros sys tr e. unfold_rstep. crunch ltac:(reflexivity || congruence). }
  split; [exact S1|]. split; [exact R1|]. split.
  - intros Size errs sr c rootPath cb. generalize (Send c rootPath cb).
    induction errs as [|e errs IH]; intros w; [reflexivity|].
    cbn [map]. rewrite exec_cons, S1. apply IH.
  - intros errs c destPath.
    assert (G : forall w : rsystem * list effect,
               r_state (fst w) = Running ->
               r_state (fst (rexec (map (fun e => REv_Recv (inl e)) errs) w)) = Running).
    { induction errs as [|e errs IH]; intros [sys tr] Hw; [exact Hw|].
      cbn [map]. rewrite rexec_cons, R1. apply IH. exact Hw. }
    apply G. reflexivity.
Qed.

(** ** Fin *)

(** [run] of the sender returns only out of its loop, on a message. *)
Lemma step_returns Size (ev : event) (sys : system) (tr : list effect)
    (res : option error) :
  returned sys = None ->
  returned (fst (snd (step Size ev (sys, tr)))) = Some res ->
  exists (p : Packet) (sr : option error),
    ev = Ev_Recv (inr p) sr /\
    ((p_Type p = PACKET_FIN /\ res = sr) \/
     (p_Type p = PACKET_REQ /\ res = Some (ErrInvalidFileId (p_ID p)))).
Proof.
  intros Hrun.
  destruct ev as [[e|p] sr| | | | |]; unfold_step;
    crunch ltac:(congruence
                 || (intros; eexists _, _; split; [reflexivity|]; (left + right);
                     split; congruence)).
Qed.

(** [run] of the receiver returns only out of its loop, on a message. *)
Lemma rstep_returns (ev : revent) (sys : rsystem) (tr : list effect)
    (res : option error) :
  r_state sys = Running ->
  r_state (fst (snd (rstep ev (sys, tr)))) = Returned res ->
  exists p : Packet,
    ev = REv_Recv (inr p) /\
    ((p_Type p = PACKET_FIN /\ res = None) \/
     (p_Type p = PACKET_DATA /\ exists e : error, res = Some e)).
Proof.
  intros Hrun.
  destruct ev as [[e|p]| |]; unfold_rstep;
    crunch ltac:(congruence
                 || (intros H; injection H as <-; eexists; split; [reflexivity|];
                     first [ left; split; [assumption | reflexivity]
                           | right; split; [assumption | eexists; reflexivity] ])).
Qed.

(** C7.  On a [Fin] the sender calls [SendMsg] once, with a [Fin], and [run]
    returns what the call returned: nil when the send succeeds; the receiver
    returns nil, whatever its state.  And a loop that returns nil has
    received a [Fin]. *)
Theorem fin_ends_the_loops Size (sys : system) (tr : list effect)
    (rsys : rsystem) (rtr : list effect) :
  returned sys = None ->
  r_state rsys = Running ->
  (forall (p : Packet) (sr : option error),
      p_Type p = PACKET_FIN ->
      let w := snd (step Size (Ev_Recv (inr p) sr) (sys, tr)) in
      returned (fst w) = Some sr /\
      calls (snd w) = calls tr ++ [(Packet_of PACKET_FIN, sr)] /\
      files (snd_ (fst w)) = files (snd_ sys) /\
      tasks (fst w) = tasks sys) /\
  (forall p : Packet,
      p_Type p = PACKET_FIN ->
      let w := snd (rstep (REv_Recv (inr p)) (rsys, rtr)) in
      r_state (fst w) = Returned None /\ snd w = rtr) /\
  (forall ev : event,
      returned (fst (snd (step Size ev (sys, tr)))) = Some None ->
      exists p : Packet, ev = Ev_Recv (inr p) None /\ p_Type p = PACKET_FIN) /\
  (forall ev : revent,
      r_state (fst (snd (rstep ev (rsys, rtr)))) = Returned None ->
      exists p : Packet, ev = REv_Recv (inr p) /\ p_Type p = PACKET_FIN).
Proof.
  intros Hrun Hrrun. split; [|split; [|split]].
  - intros p sr Hty. unfold_step. monad. rewrite Hrun. monad. rewrite Hty.
    unfold calls.
    crunch ltac:(repeat split;
                 rewrite ?omap_app; simpl; rewrite ?app_nil_r; reflexivity).
  - intros p Hty. unfold_rstep. monad. rewrite Hrrun. monad. rewrite Hrrun, Hty.
    monad. split; reflexivity.
  - intros ev H.
    destruct (step_returns Size ev sys tr None Hrun H) as (p & sr & -> & [[Hty Hsr]|[_ Hbad]]).
    + exists p. subst sr. split; [reflexivity | exact Hty].
    + discriminate Hbad.
  - intros ev H.
    destruct (rstep_returns ev rsys rtr None Hrrun H) as (p & -> & [[Hty _]|[_ [e Hbad]]]).
    + exists p. split; [reflexivity | exact Hty].
    + discriminate Hbad.
Qed.

Lemma fin_ends_the_loops_witness :
  let w0 := exec Size0 [walk_of (file_stat "a.txt" 4); Ev_WalkReturn None None]
              (Send Background "/src" true) in
  let r0 := rexec [REv_Recv (inr (Stat_ (file_stat "a.txt" 4)))] (Receive Background "/dst") in
  returned (fst (snd (step Size0 (Ev_Recv (inr (Packet_of PACKET_FIN)) None) w0))) = Some None /\
  r_state (fst (snd (rstep (REv_Recv (inr (Packet_of PACKET_FIN))) r0))) = Returned None.
Proof.
  intros w0 r0.
  destruct (fin_ends_the_loops Size0 (fst w0) (snd w0) (fst r0) (snd r0) eq_refl eq_refl)
    as (Hs & Hr & _ & _).
  split.
  - destruct (Hs (Packet_of PACKET_FIN) None eq_refl) as (H & _). exact H.
  - destruct (Hr (Packet_of PACKET_FIN) eq_refl) as (H & _). exact H.
Defined.

(** ** The context of [Receive] *)

(** The context of the receiver is a child of [context.Background], that is
    cancelled when [run] returns and not before. *)
Lemma rstep_r_ctx (ev : revent) (w : rsystem * list effect) :
  r_ctx (rcv (fst w))
  = WithCancel Background (match r_state (fst w) with Returned _ => true | _ => false end) ->
  r_ctx (rcv (fst (snd (rstep ev w))))
  = WithCancel Background
      (match r_state (fst (snd (rstep ev w))) with Returned _ => true | _ => false end).
Proof.
  destruct w as [sys tr]. simpl.
  destruct ev as [[e|p]| |]; unfold_rstep;
    crunch ltac:(congruence || (intros H; rewrite H; reflexivity)).
Qed.

(** The context of the sender is a child of the context of the caller of
    [Send], that is cancelled when [run] returns. *)
Lemma step_ctx Size (c : Context) (ev : event) (w : system * list effect) :
  ctx (snd_ (fst w))
  = WithCancel c (match returned (fst w) with Some _ => true | None => false end) ->
  ctx (snd_ (fst (snd (step Size ev w))))
  = WithCancel c
      (match returned (fst (snd (step Size ev w))) with Some _ => true | None => false end).
Proof.
  destruct w as [sys tr]. simpl.
  destruct ev; unfold_step;
    crunch ltac:(congruence || (intros H; rewrite H; reflexivity)).
Qed.

(** C10.  [Receive] does not look at its context: two calls that differ in
    the context only run alike, event by event, and the context that the
    receiver works with is a child of [context.Background], which is not done
    while [run] runs, whether the context of the caller is done or not.  The
    context that the sender works with, for comparison, is a child of the
    context of the caller of [Send], and is done when that one is. *)
Theorem Receive_ignores_its_context :
  (forall (c1 c2 : Context) (destPath : string) (evs : list revent),
      rexec evs (Receive c1 destPath) = rexec evs (Receive c2 destPath)) /\
  (forall (c : Context) (destPath : string) (evs : list revent),
      let w := rexec evs (Receive c destPath) in
      r_ctx (rcv (fst w))
      = WithCancel Background (match r_state (fst w) with Returned _ => true | _ => false end) /\
      Done (r_ctx (rcv (fst w)))
      = match r_state (fst w) with Returned _ => true | _ => false end) /\
  (forall Size (c : Context) (rootPath : string) (cb : bool) (evs : list event),
      let w := exec Size evs (Send c rootPath cb) in
      Done (ctx (snd_ (fst w)))
      = match returned (fst w) with Some _ => true | None => Done c end).
Proof.
  split; [|split].
  - intros c1 c2 destPath evs. reflexivity.
  - intros c destPath evs w.
    assert (H : r_ctx (rcv (fst w))
                = WithCancel Background
                    (match r_state (fst w) with Returned _ => true | _ => false end)).
    { subst w.
      assert (G : forall w0 : rsystem * list effect,
                 r_ctx (rcv (fst w0))
                 = WithCancel Background
                     (match r_state (fst w0) with Returned _ => true | _ => false end) ->
                 r_ctx (rcv (fst (rexec evs w0)))
                 = WithCancel Background
                     (match r_state (fst (rexec evs w0)) with
                      | Returned _ => true | _ => false end)).
      { induction evs as [|ev evs IH]; intros w0 H0; [exact H0|].
        rewrite rexec_cons. apply IH. apply rstep_r_ctx. exact H0. }
      apply G. reflexivity. }
    split; [exact H|]. rewrite H. simpl. apply orb_false_r.
  - intros Size c rootPath cb evs w.
    assert (H : ctx (snd_ (fst w))
                = WithCancel c (match returned (fst w) with Some _ => true | None => false end)).
    { subst w.
      assert (G : forall w0 : system * list effect,
                 ctx (snd_ (fst w0))
                 = WithCancel c (match returned (fst w0) with Some _ => true | None => false end) ->
                 ctx (snd_ (fst (exec Size evs w0)))
                 = WithCancel c (match returned (fst (exec Size evs w0)) with
                                 | Some _ => true | None => false end)).
      { induction evs as [|ev evs IH]; intros w0 H0; [exact H0|].
        rewrite exec_cons. apply IH. apply step_ctx. exact H0. }
      apply G. reflexivity. }
    rewrite H. simpl. destruct (returned (fst w)); reflexivity.
Qed.

(** ** The synchronized stream *)

Lemma in_progress_snoc (ws : list wire) (w : wire) :
  in_progress (ws ++ [w]) = track (in_progress ws) w.
Proof. unfold in_progress. rewrite fold_left_app. reflexivity. Qed.

Lemma sync_inv_new (n : nat) : sync_inv (new_syncStream n).
Proof.
  unfold sync_inv, new_syncStream. simpl. repeat split.
  - intros g1 g2 c1 c2 H1 _ Hh. apply lookup_replicate_1 in H1 as [-> _]. discriminate Hh.
  - intros g c H1 Hh. apply lookup_replicate_1 in H1 as [-> _]. discriminate Hh.
  - exists None. split; [reflexivity|]. intros g. split; [discriminate|].
    intros [m H]. apply lookup_replicate_1 in H as [H _]. discriminate H.
Qed.

Lemma sync_inv_step (ss : syncStream) (ev : sevent) :
  sync_inv ss -> sync_inv (sstep ss ev).
Proof.
  intros (Huniq & Hmu & o & Ho & Hsend).
  destruct ev as [g m|g|g|g err|g|g|g]; unfold sstep;
    destruct (goroutines ss !! g) as [c|] eqn:Hg;
    try (repeat split; solve [eauto]);
    destruct c; try (repeat split; solve [eauto]).
  - (* S_call *)
    unfold sync_inv, at_. simpl. split; [|split].
    + intros g1 g2 c1 c2 H1 H2 Hh1 Hh2.
      old_pc H1; [discriminate Hh1|]. old_pc H2; [discriminate Hh2|].
      eapply Huniq; eauto.
    + intros g' c H1 Hh. old_pc H1; [discriminate Hh|]. eapply Hmu; eauto.
    + exists o. split; [exact Ho|]. intros g'. rewrite Hsend.
      split; intros [m' H]; exists m'.
      * rewrite list_lookup_insert_ne; [exact H | congruence].
      * apply list_lookup_insert_Some in H.
        destruct H as [(_ & Hc & _)|[_ H]]; [discriminate Hc | exact H].
  - (* S_lock *)
    destruct (mu ss) eqn:Hm; [repeat split; solve [eauto]|].
    unfold sync_inv, at_, with_mu. simpl. split; [|split].
    + intros g1 g2 c1 c2 H1 H2 Hh1 Hh2.
      apply list_lookup_insert_Some in H1, H2.
      destruct H1 as [(-> & _)|[Hn1 H1]], H2 as [(-> & _)|[Hn2 H2]];
        try reflexivity.
      * specialize (Hmu _ _ H2 Hh2). congruence.
      * specialize (Hmu _ _ H1 Hh1). congruence.
      * specialize (Hmu _ _ H1 Hh1). congruence.
    + reflexivity.
    + exists o. split; [exact Ho|]. intros g'. rewrite Hsend.
      split; intros [m' H]; exists m'.
      * rewrite list_lookup_insert_ne; [exact H | congruence].
      * apply list_lookup_insert_Some in H.
        destruct H as [(_ & Hc & _)|[_ H]]; [discriminate Hc | exact H].
  - (* S_begin *)
    assert (Hnone : o = None).
    { destruct o as [g'|]; [|reflexivity].
      destruct (proj1 (Hsend g') eq_refl) as [m' H'].
      assert (g' = g) by (eapply Huniq; eauto). congruence. }
    subst o.
    unfold sync_inv, at_, on_wire. simpl. split; [|split].
    + intros g1 g2 c1 c2 H1 H2 Hh1 Hh2.
      apply list_lookup_insert_Some in H1, H2.
      destruct H1 as [(-> & _)|[Hn1 H1]], H2 as [(-> & _)|[Hn2 H2]];
        try reflexivity.
      * symmetry. eapply Huniq; eauto.
      * eapply Huniq; eauto.
      * eapply Huniq; eauto.
    + intros g' c H1 Hh. eapply (Hmu g); eauto.
    + exists (Some g). rewrite in_progress_snoc, Ho. split; [reflexivity|].
      intros g'. split.
      * intros [= <-]. exists m. apply list_lookup_insert_eq. eapply lookup_lt_Some; eauto.
      * intros [m' H]. apply list_lookup_insert_Some in H.
        destruct H as [(-> & _)|[Hn H]]; [reflexivity|].
        assert (None = Some g') by (apply Hsend; eauto). discriminate.
  - (* S_end *)
    assert (Hsome : o = Some g) by (apply Hsend; eauto).
    subst o.
    unfold sync_inv, at_, on_wire. simpl. split; [|split].
    + intros g1 g2 c1 c2 H1 H2 Hh1 Hh2.
      apply list_lookup_insert_Some in H1, H2.
      destruct H1 as [(-> & _)|[Hn1 H1]], H2 as [(-> & _)|[Hn2 H2]];
        try reflexivity.
      * symmetry. eapply Huniq; eauto.
      * eapply Huniq; eauto.
      * eapply Huniq; eauto.
    + intros g' c H1 Hh. eapply (Hmu g); eauto.
    + exists None. rewrite in_progress_snoc, Ho. simpl. rewrite Nat.eqb_refl.
      split; [reflexivity|]. intros g'. split; [discriminate|].
      intros [m' H]. apply list_lookup_insert_Some in H.
      destruct H as [(_ & Hc & _)|[Hn H]]; [discriminate Hc|].
      assert (Some g = Some g') by (apply Hsend; eauto). congruence.
  - (* S_unlock *)
    unfold sync_inv, at_, with_mu. simpl. split; [|split].
    + intros g1 g2 c1 c2 H1 H2 Hh1 Hh2.
      apply list_lookup_insert_Some in H1, H2.
      destruct H1 as [(_ & <- & _)|[Hn1 H1]]; [discriminate Hh1|].
      destruct H2 as [(_ & <- & _)|[Hn2 H2]]; [discriminate Hh2|].
      eapply Huniq; eauto.
    + intros g' c H1 Hh. apply list_lookup_insert_Some in H1.
      destruct H1 as [(_ & <- & _)|[Hn1 H1]]; [discriminate Hh|].
      exfalso. apply Hn1. eapply Huniq; eauto.
    + exists o. split; [exact Ho|]. intros g'. rewrite Hsend.
      split; intros [m' H]; exists m'.
      * rewrite list_lookup_insert_ne; [exact H | congruence].
      * apply list_lookup_insert_Some in H.
        destruct H as [(_ & Hc & _)|[_ H]]; [discriminate Hc | exact H].
  - (* S_recv *)
    unfold sync_inv, at_, on_wire. simpl. split; [|split].
    + intros g1 g2 c1 c2 H1 H2 Hh1 Hh2.
      old_pc H1; [discriminate Hh1|]. old_pc H2; [discriminate Hh2|].
      eapply Huniq; eauto.
    + intros g' c H1 Hh. old_pc H1; [discriminate Hh|]. eapply Hmu; eauto.
    + exists o. rewrite in_progress_snoc, Ho. split; [destruct o; reflexivity|].
      intros g'. rewrite Hsend.
      split; intros [m' H]; exists m'.
      * rewrite list_lookup_insert_ne; [exact H | congruence].
      * apply list_lookup_insert_Some in H.
        destruct H as [(_ & Hc & _)|[_ H]]; [discriminate Hc | exact H].
  - (* S_recv_end *)
    unfold sync_inv, at_, on_wire. simpl. split; [|split].
    + intros g1 g2 c1 c2 H1 H2 Hh1 Hh2.
      old_pc H1; [discriminate Hh1|]. old_pc H2; [discriminate Hh2|].
      eapply Huniq; eauto.
    + intros g' c H1 Hh. old_pc H1; [discriminate Hh|]. eapply Hmu; eauto.
    + exists o. rewrite in_progress_snoc, Ho. split; [destruct o; reflexivity|].
      intros g'. rewrite Hsend.
      split; intros [m' H]; exists m'.
      * rewrite list_lookup_insert_ne; [exact H | congruence].
      * apply list_lookup_insert_Some in H.
        destruct H as [(_ & Hc & _)|[_ H]]; [discriminate Hc | exact H].
Qed.

Lemma sync_inv_exec (evs : list sevent) :
  forall ss : syncStream, sync_inv ss -> sync_inv (sexec evs ss).
Proof.
  induction evs as [|ev evs IH]; intros ss H; [exact H|].
  apply IH. apply sync_inv_step. exact H.
Qed.

(** ** The progress callback *)


















(** Two calls of [updateProgress] that overlap, of 5 and of 2 bytes, from a
    count of 10: the callback gets 15 and then 12, and the count ends at 12.
    The steps of the sender above are those in which the calls do not
    overlap. *)
Example updateProgress_overlap :
  let u := {| upd_current := 10; upd_goroutines := [Upd_begin 5; Upd_begin 2];
              upd_calls := [] |} in
  let u' := fold_left upd_step [0; 1; 0; 0; 1; 1]%nat u in
  upd_calls u' = [(15, false); (12, false)] /\ upd_current u' = 12.
Proof. split; reflexivity. Qed.

(** C9.  Whatever the goroutines that call [SendMsg] on a [syncStream] and
    however they are scheduled, the calls of [SendMsg] on the underlying
    stream do not overlap: one begins only after the one before has ended,
    at most one goroutine is inside such a call at a time, and it holds the
    mutex.  [RecvMsg] goes to the underlying stream without the mutex: a
    goroutine enters it whether the mutex is held or not, and two goroutines
    can be inside it at once. *)
Theorem SendMsg_calls_are_serialized (n : nat) (evs : list sevent) :
  let ss := sexec evs (new_syncStream n) in
  serial (Stream ss) = true /\
  (forall (g1 g2 : nat) (m1 m2 : Packet),
      goroutines ss !! g1 = Some (InSendMsg m1) ->
      goroutines ss !! g2 = Some (InSendMsg m2) ->
      g1 = g2) /\
  (forall (g : nat) (m : Packet),
      goroutines ss !! g = Some (InSendMsg m) -> mu ss = true) /\
  (forall g : nat,
      goroutines ss !! g = Some Outside ->
      goroutines (sstep ss (S_recv g)) !! g = Some InRecvMsg /\
      mu (sstep ss (S_recv g)) = mu ss) /\
  goroutines (sexec [S_recv 0; S_recv 1] (new_syncStream 2)) = [InRecvMsg; InRecvMsg].
Proof.
  intros ss.
  destruct (sync_inv_exec evs _ (sync_inv_new n)) as (Huniq & Hmu & o & Ho & _).
  fold ss in Huniq, Hmu, Ho.
  split; [unfold serial; rewrite Ho; reflexivity|].
  split; [intros g1 g2 m1 m2 H1 H2; apply (Huniq g1 g2 _ _ H1 H2); reflexivity|].
  split; [intros g m H; apply (Hmu g _ H); reflexivity|].
  split; [|reflexivity].
  intros g Hg. unfold sstep. rewrite Hg. unfold at_, on_wire. simpl.
  split; [|reflexivity].
  apply list_lookup_insert_eq. eapply lookup_lt_Some. exact Hg.
Qed.

(** Two goroutines that send at once: the second one waits at [Lock] until
    the first one has unlocked, and the underlying stream sees one call after
    the other. *)
Example two_senders :
  let m0 := Data_ 0 [x61] in
  let m1 := Data_ 1 [x62] in
  let evs1 := [S_call 0 m0; S_call 1 m1; S_lock 0; S_begin 0; S_lock 1; S_begin 1] in
  let evs2 := [S_end 0 None; S_unlock 0; S_lock 1; S_begin 1; S_end 1 None; S_unlock 1] in
  goroutines (sexec evs1 (new_syncStream 2)) = [InSendMsg m0; AtLock m1] /\
  Stream (sexec (evs1 ++ evs2) (new_syncStream 2))
  = [Begin_SendMsg 0 m0; End_SendMsg 0 None; Begin_SendMsg 1 m1; End_SendMsg 1 None].
Proof. split; reflexivity. Qed.
